(** * analyzer-lsp: provider framework

    A shallow embedding of three parts of the repository:

    - [Dedup]: dependency deduplication ([deduplicateDependencies]), exercised
      by [provider/provider_bugfix_test.go];
    - [ConfigNorm]: provider-configuration normalization
      ([validateUpdateInternalProviderConfig]), exercised by the same test file;
    - [TreeSitter]: the tree-sitter service client of the generic external
      provider ([GetGenericServiceClientCapabilities], [EvaluateQuery]).

    Go maps are finite maps ([gmap]); slices are lists; a Go map value is a
    reference, so the configuration normalizer runs over an explicit store of
    maps; a method with a pointer receiver is a state-passing function. *)

From stdpp Require Import gmap strings list fin_maps.
From Stdlib Require Import ZArith Ascii.

Set Default Proof Using "Type".

(* ===================================================================== *)
(** * Dependency deduplication                                            *)
(* ===================================================================== *)

Module Dedup.

(** [provider.Dep], the fields the deduplicator reads and writes.  The
    records of a sequence are values, as in the data model of the spec. *)
Record Dep := mkDep {
  Name : string;
  Version : string;
  ResolvedIdentifier : string;
  Indirect : bool;
}.

#[global] Instance Dep_eq_dec : EqDecision Dep.
Proof. solve_decision. Defined.

(** [id := dep.Name + dep.Version + dep.ResolvedIdentifier] *)
Definition identity (d : Dep) : string :=
  Name d +:+ Version d +:+ ResolvedIdentifier d.

(** [dep.Indirect = false] on an entry of the output slice. *)
Definition setDirect (d : Dep) : Dep :=
  mkDep (Name d) (Version d) (ResolvedIdentifier d) false.

(** The per-file state of the loop: the output sequence and the two lookup
    tables, both mapping an identity key to a position in [output]. *)
Record State := mkState {
  output : list Dep;
  directIndexOf : gmap string nat;
  indirectIndexOf : gmap string nat;
}.

Definition init : State := mkState [] ∅ ∅.

(** Modelled from the spec: the body of the per-record loop of
    [deduplicateDependencies] (the function is not among the sources, only its
    test is).  A position that is not an index of [output] is an
    index-out-of-range panic of the slice expression, rendered as [None]. *)
Definition step (st : State) (dep : Dep) : option State :=
  let id := identity dep in
  match directIndexOf st !! id with
  | Some _ => Some st
  | None =>
      match indirectIndexOf st !! id with
      | Some pos =>
          if Indirect dep then Some st
          else
            match output st !! pos with
            | Some e =>
                Some (mkState (<[pos := setDirect e]> (output st))
                              (<[id := pos]> (directIndexOf st))
                              (indirectIndexOf st))
            | None => None
            end
      | None =>
          let pos := length (output st) in
          if Indirect dep
          then Some (mkState (output st ++ [dep])
                             (directIndexOf st)
                             (<[id := pos]> (indirectIndexOf st)))
          else Some (mkState (output st ++ [dep])
                             (<[id := pos]> (directIndexOf st))
                             (indirectIndexOf st))
      end
  end.

(** Modelled from the spec: the loop over one file's records, in their
    original order. *)
Fixpoint run (st : State) (deps : list Dep) : option State :=
  match deps with
  | [] => Some st
  | dep :: deps' =>
      match step st dep with
      | Some st' => run st' deps'
      | None => None
      end
  end.

(** Modelled from the spec: deduplication of one file's sequence, with its own
    output sequence and tables. *)
Definition deduplicateFile (deps : list Dep) : option (list Dep) :=
  output <$> run init deps.

(** Modelled from the spec: [deduplicateDependencies], one output sequence per
    file key, each file processed independently (the order in which the files
    are visited is the map's). *)
Definition deduplicateDependencies
    (dependencies : gmap string (list Dep)) : option (gmap string (list Dep)) :=
  map_fold
    (λ uri deps acc,
       match acc with
       | Some deduped =>
           match deduplicateFile deps with
           | Some out => Some (<[uri := out]> deduped)
           | None => None
           end
       | None => None
       end)
    (Some ∅) dependencies.

(** ** Specification vocabulary *)

Definition ids (l : list Dep) : list string := identity <$> l.

(** The distinct elements of a list, in the order of their first
    occurrence. *)
Fixpoint distinct (l : list string) : list string :=
  match l with
  | [] => []
  | x :: l' => x :: filter (λ y, y ≠ x) (distinct l')
  end.

(** Some occurrence of identity [k] in [l] is direct. *)
Definition has_direct (k : string) (l : list Dep) : Prop :=
  ∃ d, d ∈ l ∧ identity d = k ∧ Indirect d = false.

(** The records of [l] whose identity key is [k]. *)
Definition with_identity (k : string) (l : list Dep) : list Dep :=
  filter (λ d, identity d = k) l.

(** The invariant of the loop after the records [seen] have been
    processed. *)
Record Inv (seen : list Dep) (st : State) : Prop := {
  inv_ids : ids (output st) = distinct (ids seen);
  inv_direct : ∀ k i, directIndexOf st !! k = Some i →
    ∃ e, output st !! i = Some e ∧ identity e = k ∧ Indirect e = false;
  inv_indirect : ∀ k i, indirectIndexOf st !! k = Some i →
    ∃ e, output st !! i = Some e ∧ identity e = k;
  inv_seen : ∀ j e, output st !! j = Some e →
    is_Some (directIndexOf st !! identity e) ∨
    is_Some (indirectIndexOf st !! identity e);
  inv_flag : ∀ j e, output st !! j = Some e → Indirect e = true →
    ¬ has_direct (identity e) seen;
}.

(** ** Lists of distinct identities *)

Lemma distinct_snoc (l : list string) (x : string) :
  distinct (l ++ [x]) = distinct l ++ (if decide (x ∈ l) then [] else [x]).
Proof.
  induction l as [|a l IH].
  - destruct (decide (x ∈ [])) as [Hin|_]; [|done]. by apply elem_of_nil in Hin.
  - change (distinct ((a :: l) ++ [x]))
      with (a :: filter (λ y, y ≠ a) (distinct (l ++ [x]))).
    rewrite IH, filter_app.
    change (distinct (a :: l)) with (a :: filter (λ y, y ≠ a) (distinct l)).
    rewrite <- app_comm_cons. f_equal. f_equal.
    destruct (decide (x ∈ l)) as [Hin|Hin], (decide (x ∈ a :: l)) as [Hin'|Hin'];
      try done; try (exfalso; set_solver).
    + rewrite filter_cons. destruct (decide (x ≠ a)); [|done].
      exfalso. set_solver.
    + rewrite filter_cons. destruct (decide (x ≠ a)); [done|].
      exfalso. set_solver.
Qed.

Lemma elem_of_distinct (l : list string) (x : string) :
  x ∈ distinct l ↔ x ∈ l.
Proof.
  induction l as [|a l IH]; simpl; [done|].
  rewrite !elem_of_cons, list_elem_of_filter, IH.
  destruct (decide (x = a)); naive_solver.
Qed.

Lemma NoDup_distinct (l : list string) : NoDup (distinct l).
Proof.
  induction l as [|a l IH]; simpl; [constructor|].
  constructor.
  - rewrite list_elem_of_filter. naive_solver.
  - by apply NoDup_filter.
Qed.

Lemma filter_ne_notin (l : list string) (a : string) :
  a ∉ l → filter (λ y, y ≠ a) l = l.
Proof.
  induction l as [|b l IH]; intros Hin; [done|].
  apply not_elem_of_cons in Hin as [Hne Hin].
  rewrite filter_cons. destruct (decide (b ≠ a)) as [_|Hn]; [|by destruct Hn; intros ->].
  f_equal. by apply IH.
Qed.

Lemma distinct_NoDup (l : list string) : NoDup l → distinct l = l.
Proof.
  induction 1 as [|a l Hin _ IH]; simpl; [done|].
  by rewrite IH, filter_ne_notin.
Qed.

(** ** Identities of an output sequence *)

Lemma identity_setDirect (e : Dep) : identity (setDirect e) = identity e.
Proof. by destruct e. Qed.

Lemma ids_lookup (l : list Dep) (i : nat) (e : Dep) :
  l !! i = Some e → ids l !! i = Some (identity e).
Proof. intros H. unfold ids. by rewrite list_lookup_fmap, H. Qed.

Lemma ids_elem_of (l : list Dep) (i : nat) (e : Dep) :
  l !! i = Some e → identity e ∈ ids l.
Proof. intros H. eapply list_elem_of_lookup_2, ids_lookup, H. Qed.

Lemma elem_of_ids (l : list Dep) (k : string) :
  k ∈ ids l ↔ ∃ d, d ∈ l ∧ identity d = k.
Proof. unfold ids. rewrite list_elem_of_fmap. naive_solver. Qed.

Lemma NoDup_ids_inj (l : list Dep) (i j : nat) (e1 e2 : Dep) :
  NoDup (ids l) → l !! i = Some e1 → l !! j = Some e2 →
  identity e1 = identity e2 → i = j.
Proof.
  intros Hnd H1 H2 Heq.
  eapply NoDup_lookup; [exact Hnd| |].
  - by apply ids_lookup.
  - rewrite Heq. by apply ids_lookup.
Qed.

Lemma has_direct_snoc (k : string) (seen : list Dep) (d : Dep) :
  has_direct k (seen ++ [d]) ↔
  has_direct k seen ∨ (identity d = k ∧ Indirect d = false).
Proof.
  unfold has_direct. split.
  - intros (d' & Hin & Hk & Hd). apply elem_of_app in Hin as [Hin|Hin].
    + left. eauto.
    + apply list_elem_of_singleton in Hin as ->. by right.
  - intros [(d' & Hin & Hk & Hd)|[Hk Hd]].
    + exists d'. rewrite elem_of_app. eauto.
    + exists d. rewrite elem_of_app, list_elem_of_singleton. eauto.
Qed.

(** ** The loop invariant *)

Lemma Inv_init : Inv [] init.
Proof. split; simpl; try done; intros ??; by rewrite ?lookup_empty. Qed.

Lemma Inv_NoDup (seen : list Dep) (st : State) :
  Inv seen st → NoDup (ids (output st)).
Proof. intros HI. rewrite (inv_ids _ _ HI). apply NoDup_distinct. Qed.

Lemma Inv_ids_snoc_old (seen : list Dep) (st : State) (d e : Dep) (i : nat) :
  Inv seen st → output st !! i = Some e → identity e = identity d →
  ids (output st) = distinct (ids (seen ++ [d])).
Proof.
  intros HI He Hk. unfold ids at 2. rewrite fmap_app. simpl.
  rewrite distinct_snoc, decide_True, app_nil_r; [apply HI|].
  apply elem_of_distinct. fold (ids seen). rewrite <- (inv_ids _ _ HI), <- Hk.
  by eapply ids_elem_of.
Qed.

(** A record whose identity is already in a table is skipped. *)
Lemma Inv_skip (seen : list Dep) (st : State) (d e : Dep) (i : nat) :
  Inv seen st → output st !! i = Some e → identity e = identity d →
  (Indirect d = false → Indirect e = false) →
  Inv (seen ++ [d]) st.
Proof.
  intros HI He Hk Hflag. split.
  - by eapply Inv_ids_snoc_old.
  - apply HI.
  - apply HI.
  - apply HI.
  - intros j e' He' Hind Hd. apply has_direct_snoc in Hd as [Hd|[Hk' Hd]].
    + by eapply (inv_flag _ _ HI).
    + assert (j = i) as ->.
      { eapply NoDup_ids_inj; [by eapply Inv_NoDup|done..|congruence]. }
      assert (e' = e) as -> by congruence.
      rewrite Hflag in Hind; done.
Qed.

(** An indirect entry is upgraded in place by a direct duplicate. *)
Lemma Inv_upgrade (seen : list Dep) (st : State) (d e : Dep) (pos : nat) :
  Inv seen st → output st !! pos = Some e → identity e = identity d →
  Indirect d = false →
  Inv (seen ++ [d])
      (mkState (<[pos := setDirect e]> (output st))
               (<[identity d := pos]> (directIndexOf st))
               (indirectIndexOf st)).
Proof.
  intros HI He Hk Hd.
  assert (Hlt : pos < length (output st)) by by eapply lookup_lt_Some.
  assert (Hids : ids (<[pos := setDirect e]> (output st)) = ids (output st)).
  { unfold ids. rewrite list_fmap_insert, identity_setDirect.
    apply list_insert_id. by apply ids_lookup. }
  split; simpl.
  - rewrite Hids. by eapply Inv_ids_snoc_old.
  - intros k i Hi. destruct (decide (k = identity d)) as [->|Hne].
    + rewrite lookup_insert_eq in Hi. injection Hi as <-.
      exists (setDirect e). by rewrite list_lookup_insert_eq, identity_setDirect.
    + rewrite lookup_insert_ne in Hi by done.
      destruct (inv_direct _ _ HI _ _ Hi) as (e' & He' & Hk' & Hf).
      exists e'. split_and!; [|done..].
      rewrite list_lookup_insert_ne; [done|]. intros ->. congruence.
  - intros k i Hi.
    destruct (inv_indirect _ _ HI _ _ Hi) as (e' & He' & Hk').
    destruct (decide (i = pos)) as [->|Hne].
    + exists (setDirect e). rewrite list_lookup_insert_eq, identity_setDirect by done.
      split; congruence.
    + exists e'. by rewrite list_lookup_insert_ne.
  - intros j e' He'. destruct (decide (j = pos)) as [->|Hne].
    + rewrite list_lookup_insert_eq in He' by done. injection He' as <-.
      left. rewrite identity_setDirect, Hk, lookup_insert_eq. eauto.
    + rewrite list_lookup_insert_ne in He' by done.
      destruct (inv_seen _ _ HI _ _ He') as [[x Hx]|Hx]; [left|by right].
      destruct (decide (identity d = identity e')) as [Heq|Hneq].
      * rewrite Heq, lookup_insert_eq. eauto.
      * rewrite lookup_insert_ne by done. eauto.
  - intros j e' He' Hind Hdir. destruct (decide (j = pos)) as [->|Hne].
    + rewrite list_lookup_insert_eq in He' by done. by injection He' as <-.
    + rewrite list_lookup_insert_ne in He' by done.
      apply has_direct_snoc in Hdir as [Hdir|[Hk' _]].
      * by eapply (inv_flag _ _ HI).
      * apply Hne. eapply NoDup_ids_inj; [by eapply Inv_NoDup|done..|congruence].
Qed.

(** A record with a new identity is appended. *)
Lemma Inv_append (seen : list Dep) (st : State) (d : Dep) :
  Inv seen st →
  directIndexOf st !! identity d = None →
  indirectIndexOf st !! identity d = None →
  Inv (seen ++ [d])
      (if Indirect d
       then mkState (output st ++ [d]) (directIndexOf st)
              (<[identity d := length (output st)]> (indirectIndexOf st))
       else mkState (output st ++ [d])
              (<[identity d := length (output st)]> (directIndexOf st))
              (indirectIndexOf st)).
Proof.
  intros HI Hdir Hind.
  assert (Hnew : identity d ∉ ids seen).
  { rewrite <- elem_of_distinct, <- (inv_ids _ _ HI).
    intros (i & Hi)%list_elem_of_lookup_1. unfold ids in Hi.
    rewrite list_lookup_fmap in Hi.
    destruct (output st !! i) as [e|] eqn:He; [|done]. injection Hi as Hi.
    destruct (inv_seen _ _ HI _ _ He) as [[x Hx]|[x Hx]]; congruence. }
  assert (Hids : ids (output st ++ [d]) = distinct (ids (seen ++ [d]))).
  { unfold ids. rewrite !fmap_app. simpl. rewrite distinct_snoc.
    rewrite decide_False by done. f_equal. apply HI. }
  assert (Hold : ∀ j e, (output st ++ [d]) !! j = Some e →
            output st !! j = Some e ∨ (j = length (output st) ∧ e = d)).
  { intros j e [?|[? ?]]%lookup_snoc_Some; [left|right]; naive_solver. }
  assert (Hflag : ∀ j e, (output st ++ [d]) !! j = Some e → Indirect e = true →
            ¬ has_direct (identity e) (seen ++ [d])).
  { intros j e [He|[-> ->]]%Hold Hi Hd.
    - apply has_direct_snoc in Hd as [Hd|[Hk _]].
      + by eapply (inv_flag _ _ HI).
      + apply Hnew. rewrite <- elem_of_distinct, <- (inv_ids _ _ HI), Hk.
        by eapply ids_elem_of.
    - apply has_direct_snoc in Hd as [(d' & Hin & Hk & _)|[_ Hd]]; [|congruence].
      apply Hnew. apply elem_of_ids. eauto. }
  destruct (Indirect d) eqn:Hd; split; simpl; try done.
  - intros k i Hi. destruct (inv_direct _ _ HI _ _ Hi) as (e & He & ? & ?).
    exists e. split_and!; [|done..]. by apply lookup_app_l_Some.
  - intros k i Hi. destruct (decide (k = identity d)) as [->|Hne].
    + rewrite lookup_insert_eq in Hi. injection Hi as <-.
      exists d. by rewrite list_lookup_middle.
    + rewrite lookup_insert_ne in Hi by done.
      destruct (inv_indirect _ _ HI _ _ Hi) as (e & He & ?).
      exists e. split; [|done]. by apply lookup_app_l_Some.
  - intros j e [He|[-> ->]]%Hold.
    + destruct (inv_seen _ _ HI _ _ He) as [Hx|[x Hx]]; [by left|right].
      destruct (decide (identity d = identity e)) as [Heq|Hneq].
      * rewrite Heq, lookup_insert_eq. eauto.
      * rewrite lookup_insert_ne by done. eauto.
    + right. rewrite lookup_insert_eq. eauto.
  - intros k i Hi. destruct (decide (k = identity d)) as [->|Hne].
    + rewrite lookup_insert_eq in Hi. injection Hi as <-.
      exists d. by rewrite list_lookup_middle.
    + rewrite lookup_insert_ne in Hi by done.
      destruct (inv_direct _ _ HI _ _ Hi) as (e & He & ? & ?).
      exists e. split_and!; [|done..]. by apply lookup_app_l_Some.
  - intros k i Hi. destruct (inv_indirect _ _ HI _ _ Hi) as (e & He & ?).
    exists e. split; [|done]. by apply lookup_app_l_Some.
  - intros j e [He|[-> ->]]%Hold.
    + destruct (inv_seen _ _ HI _ _ He) as [[x Hx]|Hx]; [left|by right].
      destruct (decide (identity d = identity e)) as [Heq|Hneq].
      * rewrite Heq, lookup_insert_eq. eauto.
      * rewrite lookup_insert_ne by done. eauto.
    + left. rewrite lookup_insert_eq. eauto.
Qed.

(** One iteration never panics and re-establishes the invariant. *)
Lemma step_Inv (seen : list Dep) (st : State) (d : Dep) :
  Inv seen st → ∃ st', step st d = Some st' ∧ Inv (seen ++ [d]) st'.
Proof.
  intros HI. unfold step.
  destruct (directIndexOf st !! identity d) as [i|] eqn:Hdir.
  - exists st. split; [done|].
    destruct (inv_direct _ _ HI _ _ Hdir) as (e & He & Hk & Hf).
    by eapply Inv_skip.
  - destruct (indirectIndexOf st !! identity d) as [pos|] eqn:Hind.
    + destruct (inv_indirect _ _ HI _ _ Hind) as (e & He & Hk).
      destruct (Indirect d) eqn:Hd.
      * exists st. split; [done|]. eapply Inv_skip; [done..|congruence].
      * rewrite He. eexists. split; [done|]. by apply Inv_upgrade.
    + pose proof (Inv_append _ _ d HI Hdir Hind) as HA.
      destruct (Indirect d); eauto.
Qed.

Lemma run_Inv (deps seen : list Dep) (st : State) :
  Inv seen st → ∃ st', run st deps = Some st' ∧ Inv (seen ++ deps) st'.
Proof.
  revert seen st. induction deps as [|d deps IH]; intros seen st HI; simpl.
  - exists st. by rewrite app_nil_r.
  - destruct (step_Inv _ _ d HI) as (st1 & -> & HI1).
    destruct (IH _ _ HI1) as (st2 & Hrun & HI2).
    exists st2. by rewrite <- app_assoc in HI2.
Qed.

(** Deduplication of one file never panics; its result satisfies the
    invariant for the whole input. *)
Lemma deduplicateFile_Inv (deps : list Dep) :
  ∃ st, run init deps = Some st ∧ deduplicateFile deps = Some (output st) ∧
        Inv deps st.
Proof.
  destruct (run_Inv deps [] init Inv_init) as (st & Hrun & HI).
  exists st. unfold deduplicateFile. by rewrite Hrun.
Qed.

(** ** Consequences of the invariant *)

Lemma with_identity_notin (k : string) (l : list Dep) :
  k ∉ ids l → with_identity k l = [].
Proof.
  unfold with_identity. induction l as [|a l IH]; intros Hk; [done|].
  apply not_elem_of_cons in Hk as [Hne Hk].
  rewrite filter_cons. destruct (decide (identity a = k)); [congruence|].
  by apply IH.
Qed.

Lemma with_identity_unique (l : list Dep) (r : Dep) :
  NoDup (ids l) → r ∈ l → with_identity (identity r) l = [r].
Proof.
  unfold with_identity.
  induction l as [|a l IH]; intros Hnd Hin; [by apply elem_of_nil in Hin|].
  apply NoDup_cons in Hnd as [Ha Hnd]. rewrite filter_cons.
  apply elem_of_cons in Hin as [->|Hin].
  - rewrite decide_True by done. f_equal. by apply with_identity_notin.
  - rewrite decide_False; [by apply IH|].
    intros Heq. apply Ha. fold (ids l). rewrite Heq. apply elem_of_ids. eauto.
Qed.

(** What the output of one file holds for an identity with a direct
    occurrence. *)
Lemma Inv_direct_entry (l : list Dep) (st : State) (k : string) :
  Inv l st → has_direct k l →
  ∃ i r, distinct (ids l) !! i = Some k ∧ output st !! i = Some r ∧
         with_identity k (output st) = [r] ∧ Indirect r = false.
Proof.
  intros HI Hdir.
  assert (Hk : k ∈ distinct (ids l)).
  { apply elem_of_distinct, elem_of_ids. destruct Hdir as (d & ? & ? & ?). eauto. }
  apply list_elem_of_lookup_1 in Hk as [i Hi].
  assert (Ho : ids (output st) !! i = Some k) by by rewrite (inv_ids _ _ HI).
  unfold ids in Ho. rewrite list_lookup_fmap in Ho.
  destruct (output st !! i) as [r|] eqn:Hr; [|done]. injection Ho as Hrk.
  exists i, r. split_and!; [done..| |].
  - rewrite <- Hrk. apply with_identity_unique; [by eapply Inv_NoDup|].
    by eapply list_elem_of_lookup_2.
  - destruct (Indirect r) eqn:Hind; [|done].
    exfalso. eapply (inv_flag _ _ HI); [done..|]. by rewrite Hrk.
Qed.

Lemma step_fresh (seen : list Dep) (st : State) (d : Dep) :
  Inv seen st → identity d ∉ ids seen →
  ∃ st', step st d = Some st' ∧ output st' = output st ++ [d] ∧
         Inv (seen ++ [d]) st'.
Proof.
  intros HI Hnew.
  assert (Hout : ∀ i e, output st !! i = Some e → identity e ≠ identity d).
  { intros i e He Hk. apply Hnew.
    rewrite <- elem_of_distinct, <- (inv_ids _ _ HI), <- Hk.
    by eapply ids_elem_of. }
  destruct (step_Inv _ _ d HI) as (st' & Hstep & HI').
  exists st'. split_and!; [done| |done].
  unfold step in Hstep.
  destruct (directIndexOf st !! identity d) as [i|] eqn:Hdir.
  { destruct (inv_direct _ _ HI _ _ Hdir) as (e & He & Hk & _).
    by destruct (Hout _ _ He). }
  destruct (indirectIndexOf st !! identity d) as [i|] eqn:Hind.
  { destruct (inv_indirect _ _ HI _ _ Hind) as (e & He & Hk).
    by destruct (Hout _ _ He). }
  destruct (Indirect d); by injection Hstep as <-.
Qed.

Lemma run_fresh (deps seen : list Dep) (st : State) :
  Inv seen st → NoDup (ids (seen ++ deps)) →
  ∃ st', run st deps = Some st' ∧ output st' = output st ++ deps.
Proof.
  revert seen st. induction deps as [|d deps IH]; intros seen st HI Hnd; simpl.
  - exists st. by rewrite app_nil_r.
  - assert (Hnew : identity d ∉ ids seen).
    { unfold ids in Hnd. rewrite fmap_app in Hnd.
      apply NoDup_app in Hnd as (_ & Hd & _). intros Hin.
      apply (Hd _ Hin). simpl. left. }
    destruct (step_fresh _ _ d HI Hnew) as (st1 & -> & Ho1 & HI1).
    destruct (IH _ _ HI1) as (st2 & Hrun & Ho2).
    { by rewrite <- app_assoc. }
    exists st2. split; [done|]. by rewrite Ho2, Ho1, <- app_assoc.
Qed.

(** A sequence with pairwise distinct identities is returned as it is. *)
Lemma deduplicateFile_NoDup (l : list Dep) :
  NoDup (ids l) → deduplicateFile l = Some l.
Proof.
  intros Hnd. destruct (run_fresh l [] init Inv_init Hnd) as (st & Hrun & Ho).
  unfold deduplicateFile. rewrite Hrun. simpl. by rewrite Ho.
Qed.

(** The files are deduplicated one by one: the result has an output sequence
    for every file key of the input, and for no other. *)
Lemma deduplicateDependencies_lookup (dependencies : gmap string (list Dep)) :
  ∃ out, deduplicateDependencies dependencies = Some out ∧
         ∀ uri, out !! uri = dependencies !! uri ≫= deduplicateFile.
Proof.
  unfold deduplicateDependencies.
  apply (map_fold_weak_ind
    (λ r (m : gmap string (list Dep)),
       ∃ out, r = Some out ∧ ∀ uri, out !! uri = m !! uri ≫= deduplicateFile)).
  - exists ∅. split; [done|]. intros uri. by rewrite !lookup_empty.
  - intros uri deps m r Hnone (out & -> & Hout).
    destruct (deduplicateFile_Inv deps) as (st & _ & Hfile & _).
    rewrite Hfile. eexists. split; [done|]. intros uri'.
    destruct (decide (uri = uri')) as [->|Hne].
    + by rewrite !lookup_insert_eq.
    + by rewrite !lookup_insert_ne.
Qed.

(** C1. For every per-file dependency map and every identity key that occurs
    in a file's sequence with at least one direct occurrence
    ([Indirect = false]), deduplication returns, for that file, a sequence that
    contains exactly one record with that identity key; the record is direct,
    and it stands at the index the identity has among the distinct identities
    of the input, taken in the order of their first occurrence. *)
Theorem deduplicate_direct_wins
    (dependencies : gmap string (list Dep)) (uri : string) (deps : list Dep)
    (k : string) :
  dependencies !! uri = Some deps →
  has_direct k deps →
  ∃ deduped out i r,
    deduplicateDependencies dependencies = Some deduped ∧
    deduped !! uri = Some out ∧
    with_identity k out = [r] ∧
    Indirect r = false ∧
    distinct (ids deps) !! i = Some k ∧
    out !! i = Some r.
Proof.
  intros Hdeps Hdir.
  destruct (deduplicateDependencies_lookup dependencies) as (deduped & Hd & Hl).
  destruct (deduplicateFile_Inv deps) as (st & _ & Hfile & HI).
  destruct (Inv_direct_entry _ _ _ HI Hdir) as (i & r & Hi & Hr & Hw & Hf).
  exists deduped, (output st), i, r. split_and!; try done.
  by rewrite Hl, Hdeps.
Qed.

(** C9. Deduplication is idempotent: applied to its own output it returns
    that output again, the same sequence for every file key. *)
Theorem deduplicate_idempotent (dependencies : gmap string (list Dep)) :
  ∃ deduped,
    deduplicateDependencies dependencies = Some deduped ∧
    deduplicateDependencies deduped = Some deduped.
Proof.
  destruct (deduplicateDependencies_lookup dependencies) as (deduped & Hd & Hl).
  destruct (deduplicateDependencies_lookup deduped) as (again & Ha & Hl').
  exists deduped. split; [done|]. rewrite Ha. f_equal.
  apply map_eq. intros uri. rewrite Hl'.
  destruct (deduped !! uri) as [out|] eqn:Hout; [|done]. simpl.
  rewrite Hl in Hout.
  destruct (dependencies !! uri) as [deps|]; [|done]. simpl in Hout.
  destruct (deduplicateFile_Inv deps) as (st & _ & Hfile & HI).
  assert (out = output st) as -> by congruence.
  apply deduplicateFile_NoDup. by eapply Inv_NoDup.
Qed.

(** The scenario of [TestDeduplicateDependencies_UpgradeIndirectToDirect]. *)
Definition testURI : string := "file:///test/pom.xml".
Definition libA : Dep := mkDep "libA" "1.0" "" false.
Definition libB_indirect : Dep := mkDep "libB" "2.0" "" true.
Definition libC : Dep := mkDep "libC" "3.0" "" false.
Definition libB_direct : Dep := mkDep "libB" "2.0" "" false.
Definition test_deps : gmap string (list Dep) :=
  {[ testURI := [libA; libB_indirect; libC; libB_direct] ]}.

Example deduplicate_test_scenario :
  deduplicateFile [libA; libB_indirect; libC; libB_direct]
  = Some [libA; libB_direct; libC].
Proof. vm_compute. reflexivity. Qed.

Lemma deduplicate_direct_wins_witness :
  ∃ deduped out i r,
    deduplicateDependencies test_deps = Some deduped ∧
    deduped !! testURI = Some out ∧
    with_identity "libB2.0" out = [r] ∧
    Indirect r = false ∧
    distinct (ids [libA; libB_indirect; libC; libB_direct]) !! i
      = Some "libB2.0" ∧
    out !! i = Some r.
Proof.
  apply (deduplicate_direct_wins test_deps testURI
           [libA; libB_indirect; libC; libB_direct] "libB2.0").
  - reflexivity.
  - exists libB_direct. split; [|split; reflexivity].
    apply list_elem_of_In. simpl. tauto.
Defined.

(** ** The old copy inlined in the test

    [buggyDedup] of [TestDeduplicateDependencies_OldBuggyBehavior], as the
    test file has it: one table [depSeen], keyed by the identity followed by
    "direct" or "indirect", and the position recorded for a new record is
    [len(deduped) - 1], the number of file keys so far less one. *)
Definition buggy_step (uri : string)
    (st : gmap string (list Dep) * gmap string nat) (dep : Dep)
    : option (gmap string (list Dep) * gmap string nat) :=
  let '(deduped, depSeen) := st in
  let id := identity dep in
  match depSeen !! (id +:+ "direct") with
  | Some _ => Some st
  | None =>
      match depSeen !! (id +:+ "indirect") with
      | Some i =>
          if Indirect dep then Some st
          else
            let out := default [] (deduped !! uri) in
            match out !! i with
            | Some e =>
                Some (<[uri := <[i := setDirect e]> out]> deduped,
                      <[id +:+ "direct" := i]> depSeen)
            | None => None
            end
      | None =>
          let deduped' :=
            <[uri := default [] (deduped !! uri) ++ [dep]]> deduped in
          let i := size deduped' - 1 in
          Some (deduped',
                if Indirect dep then <[id +:+ "indirect" := i]> depSeen
                else <[id +:+ "direct" := i]> depSeen)
      end
  end.

Fixpoint buggy_run (uri : string)
    (st : gmap string (list Dep) * gmap string nat) (deps : list Dep)
    : option (gmap string (list Dep) * gmap string nat) :=
  match deps with
  | [] => Some st
  | dep :: deps' =>
      match buggy_step uri st dep with
      | Some st' => buggy_run uri st' deps'
      | None => None
      end
  end.

Definition buggyDedup (dependencies : gmap string (list Dep))
    : option (gmap string (list Dep)) :=
  map_fold
    (λ uri deps acc,
       match acc with
       | Some deduped => fst <$> buggy_run uri (<[uri := []]> deduped, ∅) deps
       | None => None
       end)
    (Some ∅) dependencies.

(** The assertion of [TestDeduplicateDependencies_OldBuggyBehavior]: the
    recorded position is 0, the upgrade lands on libA, and libB, at index 1,
    stays indirect. *)
Example buggyDedup_leaves_indirect :
  buggyDedup test_deps = Some {[ testURI := [libA; libB_indirect; libC] ]} ∧
  Indirect <$> ([libA; libB_indirect; libC] !! 1) = Some true.
Proof. split; vm_compute; reflexivity. Qed.

(** *** What the old copy does on one file, and on two *)

(** On one file every recorded position is 0: the first entry of the output
    is the first record, as it is or made direct, and the entries after it
    are records of the input as they were given, in their order. *)
Definition first_only (out seen : list Dep) : Prop :=
  match out, seen with
  | [], [] => True
  | e0 :: rest, d0 :: ds =>
      (e0 = d0 ∨ e0 = setDirect d0) ∧ rest `sublist_of` ds
  | _, _ => False
  end.

Definition single_inv (uri : string) (seen : list Dep)
    (st : gmap string (list Dep) * gmap string nat) : Prop :=
  ∃ out, st.1 = {[ uri := out ]} ∧
         (∀ k i, st.2 !! k = Some i → i = 0 ∧ out ≠ []) ∧
         first_only out seen.

Lemma setDirect_idemp (d : Dep) : setDirect (setDirect d) = setDirect d.
Proof. done. Qed.

Lemma first_only_skip (out seen : list Dep) (dep : Dep) :
  out ≠ [] → first_only out seen → first_only out (seen ++ [dep]).
Proof.
  destruct out as [|e0 rest], seen as [|d0 ds]; try done.
  intros _ [He Hsub]. split; [done|]. by apply sublist_inserts_r.
Qed.

Lemma first_only_snoc (out seen : list Dep) (dep : Dep) :
  first_only out seen → first_only (out ++ [dep]) (seen ++ [dep]).
Proof.
  destruct out as [|e0 rest], seen as [|d0 ds]; try done.
  - intros _. split; [by left|done].
  - intros [He Hsub]. split; [done|]. by apply sublist_app.
Qed.

Lemma buggy_step_single (uri : string) (seen : list Dep)
    (st : gmap string (list Dep) * gmap string nat) (dep : Dep) :
  single_inv uri seen st →
  ∃ st', buggy_step uri st dep = Some st' ∧ single_inv uri (seen ++ [dep]) st'.
Proof.
  destruct st as [deduped depSeen]. intros (out & Hd & Hseen & Hfo).
  simpl in Hd, Hseen. subst deduped. unfold buggy_step.
  destruct (depSeen !! (identity dep +:+ "direct")) as [i|] eqn:Hdir.
  { eexists. split; [done|]. exists out. split_and!; [done..|].
    apply first_only_skip; [|done]. by eapply Hseen. }
  destruct (depSeen !! (identity dep +:+ "indirect")) as [i|] eqn:Hind.
  - destruct (Hseen _ _ Hind) as [-> Hne].
    destruct (Indirect dep).
    { eexists. split; [done|]. exists out. split_and!; [done..|].
      by apply first_only_skip. }
    rewrite lookup_singleton_eq. simpl.
    destruct out as [|e0 rest]; [done|]. simpl.
    eexists. split; [done|]. exists (setDirect e0 :: rest). simpl.
    split_and!; [by rewrite insert_singleton_eq| |].
    + intros k i. destruct (decide (identity dep +:+ "direct" = k)) as [<-|Hk].
      * rewrite lookup_insert_eq. by intros [= <-].
      * rewrite lookup_insert_ne by done. intros Hi.
        by destruct (Hseen _ _ Hi) as [-> _].
    + destruct seen as [|d0 ds]; [done|]. destruct Hfo as [[->| ->] Hsub].
      * split; [by right|]. by apply sublist_inserts_r.
      * split; [by right|]. by apply sublist_inserts_r.
  - rewrite lookup_singleton_eq. simpl. rewrite insert_singleton_eq.
    rewrite map_size_singleton. simpl.
    eexists. split; [done|]. exists (out ++ [dep]). simpl.
    split_and!; [done| |by apply first_only_snoc].
    intros k i Hi. assert (i = 0) as ->.
    { destruct (Indirect dep).
      - destruct (decide (identity dep +:+ "indirect" = k)) as [<-|Hk].
        + rewrite lookup_insert_eq in Hi. by simplify_eq.
        + rewrite lookup_insert_ne in Hi by done. by destruct (Hseen _ _ Hi).
      - destruct (decide (identity dep +:+ "direct" = k)) as [<-|Hk].
        + rewrite lookup_insert_eq in Hi. by simplify_eq.
        + rewrite lookup_insert_ne in Hi by done. by destruct (Hseen _ _ Hi). }
    split; [done|]. by destruct out.
Qed.

Lemma buggy_run_single (uri : string) (deps seen : list Dep)
    (st : gmap string (list Dep) * gmap string nat) :
  single_inv uri seen st →
  ∃ st', buggy_run uri st deps = Some st' ∧ single_inv uri (seen ++ deps) st'.
Proof.
  revert seen st. induction deps as [|d deps IH]; intros seen st HI; simpl.
  - exists st. by rewrite app_nil_r.
  - destruct (buggy_step_single _ _ _ d HI) as (st1 & -> & HI1).
    destruct (IH _ _ HI1) as (st2 & Hrun & HI2).
    exists st2. by rewrite <- app_assoc in HI2.
Qed.

(** The first file the old copy visits. *)
Lemma buggy_first_file (uri : string) (deps : list Dep) :
  ∃ out, fst <$> buggy_run uri (<[uri := []]> ∅, ∅) deps
         = Some {[ uri := out ]} ∧
         first_only out deps.
Proof.
  destruct (buggy_run_single uri deps [] (<[uri := []]> ∅, ∅))
    as ([deduped depSeen] & Hrun & out & Hd & _ & Hfo).
  { exists []. simpl. split_and!; [by rewrite insert_empty| |done].
    intros k i. by rewrite lookup_empty. }
  simpl in Hd. subst deduped. exists out. by rewrite Hrun.
Qed.

(** On a map with one file the old deduplication does not panic, and it can
    make only the first entry of the output direct: every later entry is a
    record of the input exactly as given, in the order of the input.  An
    indirect record that is not the first one stays indirect, whatever
    follows it. *)
Theorem buggyDedup_single_file (uri : string) (deps : list Dep) :
  ∃ out,
    buggyDedup {[ uri := deps ]} = Some {[ uri := out ]} ∧
    (out = [] ↔ deps = []) ∧
    (∀ e, head out = Some e →
          ∃ d, head deps = Some d ∧ (e = d ∨ e = setDirect d)) ∧
    tail out `sublist_of` tail deps.
Proof.
  destruct (buggy_first_file uri deps) as (out & Hrun & Hfo).
  exists out. unfold buggyDedup. rewrite map_fold_singleton, Hrun.
  split; [done|].
  destruct out as [|e0 rest], deps as [|d0 ds]; try done; simpl.
  destruct Hfo as [He Hsub]. split_and!; [done| |done].
  intros e [= <-]. by exists d0.
Qed.





Lemma append_assoc (a b c : string) : (a +:+ b) +:+ c = a +:+ (b +:+ c).
Proof.
  induction a as [|x a IH]; [done|].
  change (String x ((a +:+ b) +:+ c) = String x (a +:+ (b +:+ c))).
  by rewrite IH.
Qed.

Lemma append_ne_self (s a : string) : a ≠ "" → s +:+ a ≠ s.
Proof.
  intros Ha. induction s as [|x s IH]; [done|].
  change (String x (s +:+ a) ≠ String x s). by intros [= H].
Qed.

(** The keys of [depSeen] are the identity with "direct" or "indirect"
    appended, so two identities can meet in one key.  After an indirect
    record, a record whose identity is the first one followed by "in" is
    taken for a duplicate already seen as direct: it is dropped, direct or
    not, and the first record stays indirect. *)
Theorem buggyDedup_suffix_collision (uri : string) (d1 d2 : Dep) :
  Indirect d1 = true →
  identity d2 = identity d1 +:+ "in" →
  identity d2 ≠ identity d1 ∧
  buggyDedup {[ uri := [d1; d2] ]} = Some {[ uri := [d1] ]}.
Proof.
  intros H1 Hid. split.
  { rewrite Hid. by apply append_ne_self. }
  unfold buggyDedup. rewrite map_fold_singleton. cbn [buggy_run].
  unfold buggy_step at 1. rewrite !lookup_empty, H1, lookup_insert_eq.
  cbn [default]. rewrite insert_insert_eq, insert_empty.
  unfold buggy_step. cbv zeta. rewrite Hid, append_assoc.
  change ("in" +:+ "direct") with "indirect".
  by rewrite lookup_insert_eq.
Qed.

Lemma buggyDedup_suffix_collision_witness :
  identity (mkDep "xin" "" "" false) ≠ identity (mkDep "x" "" "" true) ∧
  buggyDedup {[ testURI := [mkDep "x" "" "" true; mkDep "xin" "" "" false] ]}
  = Some {[ testURI := [mkDep "x" "" "" true] ]}.
Proof.
  apply (buggyDedup_suffix_collision testURI (mkDep "x" "" "" true)
           (mkDep "xin" "" "" false)); reflexivity.
Defined.

End Dedup.

(* ===================================================================== *)
(** * Provider-configuration normalization                                *)
(* ===================================================================== *)

Module ConfigNorm.

(** ** Data *)

(** A value that stands as a key in a [map[interface{}]interface{}]. *)
Inductive key : Type :=
| KStr (s : string)
| KInt (z : Z)
| KBool (b : bool).

#[global] Instance key_eq_dec : EqDecision key.
Proof. solve_decision. Defined.

(** The runtime type of a key. *)
Inductive key_type : Type := TString | TInt | TBool.

Definition type_of (k : key) : key_type :=
  match k with KStr _ => TString | KInt _ => TInt | KBool _ => TBool end.

Definition is_string (k : key) : bool :=
  match k with KStr _ => true | _ => false end.

(** A raw configuration node: a scalar, a sequence (opaque to the
    normalizer), or a map with untyped keys.  A map is written as its
    entries in the order the [range] loop visits them. *)
#[warnings="-register-all"]
Inductive raw : Type :=
| RNil
| RBool (b : bool)
| RInt (z : Z)
| RStr (s : string)
| RSeq (l : list raw)
| RMap (m : rawmap)
with rawmap : Type :=
| MNil
| MCons (k : key) (v : raw) (rest : rawmap).

(** A [map[string]interface{}] is a reference.  The store holds the maps that
    have been made, a location is an index of it, and [make] appends. *)
Abbreviation loc := nat.

(** What a canonical map holds under a key: a value passed through, or a
    reference to a nested canonical map. *)
Inductive oval : Type :=
| OScalar (v : raw)
| OMap (l : loc).

Abbreviation cell := (gmap string oval).
Abbreviation store := (list (gmap string oval)).

Inductive nerror : Type :=
| KeyTypeError (t : key_type).

(** ** The normalizer *)

(** Modelled from the spec: the loop of
    [validateUpdateInternalProviderConfig] over the entries of the raw map
    (the function is not among the sources, only its test is).  [new] is the
    output map of the current call; a nested raw map is normalized into a map
    of its own, made by the recursive call, and stored under the converted
    key; any other value is stored unchanged; a key that is not a string
    ends the whole normalization. *)
Fixpoint normalize_entries (es : rawmap) (new : loc) (h : store)
    : (nerror + loc) * store :=
  match es with
  | MNil => (inr new, h)
  | MCons k v rest =>
      match k with
      | KStr s =>
          match v with
          | RMap o =>
              match normalize_entries o (length h) (h ++ [∅]) with
              | (inl err, h') => (inl err, h')
              | (inr nested, h') =>
                  normalize_entries rest new
                    (alter (insert s (OMap nested)) new h')
              end
          | _ =>
              normalize_entries rest new (alter (insert s (OScalar v)) new h)
          end
      | _ => (inl (KeyTypeError (type_of k)), h)
      end
  end.

(** Modelled from the spec: [validateUpdateInternalProviderConfig(old)].  It
    makes a new output map, fills it, and returns it, or returns the error
    and no map. *)
Definition validateUpdateInternalProviderConfig (old : rawmap) (h : store)
    : (nerror + loc) * store :=
  normalize_entries old (length h) (h ++ [∅]).

(** ** Specification vocabulary *)

(** Every key, at every depth of nested maps, is a string. *)
Fixpoint string_keys (m : rawmap) : bool :=
  match m with
  | MNil => true
  | MCons k v rest =>
      is_string k
      && match v with RMap o => string_keys o | _ => true end
      && string_keys rest
  end.

(** Some key, at some depth of nested maps, is not a string. *)
Fixpoint nonstring_key (m : rawmap) : bool :=
  match m with
  | MNil => false
  | MCons k v rest =>
      negb (is_string k)
      || match v with RMap o => nonstring_key o | _ => false end
      || nonstring_key rest
  end.

(** [k] is a key of [m] or of a map nested in it. *)
Fixpoint key_in (k : key) (m : rawmap) : bool :=
  match m with
  | MNil => false
  | MCons k' v rest =>
      bool_decide (k = k')
      || match v with RMap o => key_in k o | _ => false end
      || key_in k rest
  end.

(** The value a raw map holds under a key. *)
Fixpoint mlookup (m : rawmap) (k : key) : option raw :=
  match m with
  | MNil => None
  | MCons k' v rest => if decide (k' = k) then Some v else mlookup rest k
  end.

(** The entries are those of a Go map: no key occurs twice in one map, at
    any depth. *)
Fixpoint distinct_keys (m : rawmap) : bool :=
  match m with
  | MNil => true
  | MCons k v rest =>
      match mlookup rest k with None => true | Some _ => false end
      && match v with RMap o => distinct_keys o | _ => true end
      && distinct_keys rest
  end.

(** The node of a raw tree at a path of string keys. *)
Fixpoint rget (v : raw) (p : list string) : option raw :=
  match p with
  | [] => Some v
  | s :: p' =>
      match v with
      | RMap m =>
          match mlookup m (KStr s) with
          | Some v' => rget v' p'
          | None => None
          end
      | _ => None
      end
  end.

(** The node of a canonical tree at a path, read through the store. *)
Fixpoint oget (h : store) (v : oval) (p : list string) : option oval :=
  match p with
  | [] => Some v
  | s :: p' =>
      match v with
      | OMap l =>
          match h !! l with
          | Some c =>
              match c !! s with
              | Some v' => oget h v' p'
              | None => None
              end
          | None => None
          end
      | OScalar _ => None
      end
  end.

(** A node of the output is the node of the input: absent, the same value,
    or a map where the input has a map. *)
Definition same_node (o : option oval) (r : option raw) : Prop :=
  match r with
  | None => o = None
  | Some (RMap _) => ∃ l, o = Some (OMap l)
  | Some v => o = Some (OScalar v)
  end.

(** The keys of a cell are among those of a raw map. *)
Definition keys_within (c : cell) (m : rawmap) : Prop :=
  ∀ s, mlookup m (KStr s) = None → c !! s = None.

(** The cell [c] holds every entry of [es]; the nested maps are in the store
    at locations from [lo] up to [hi]. *)
Fixpoint ents_ok (h : store) (lo hi : nat) (c : cell) (es : rawmap) : Prop :=
  match es with
  | MNil => True
  | MCons k v rest =>
      (∃ s, k = KStr s ∧
         match v with
         | RMap o =>
             ∃ l c', c !! s = Some (OMap l) ∧ lo ≤ l < hi ∧
                     h !! l = Some c' ∧ keys_within c' o ∧
                     ents_ok h lo hi c' o
         | _ => c !! s = Some (OScalar v)
         end)
      ∧ ents_ok h lo hi c rest
  end.

(** The value a canonical node holds under a key. *)
Definition child (h : store) (v : oval) (s : string) : option oval :=
  match v with
  | OMap l => h !! l ≫= λ c : cell, c !! s
  | OScalar _ => None
  end.

(** The output node [ov] stands for the raw node [v]. *)
Definition node_ok (h : store) (lo hi : nat) (ov : oval) (v : raw) : Prop :=
  match v with
  | RMap m =>
      ∃ l c, ov = OMap l ∧ h !! l = Some c ∧ keys_within c m ∧
             ents_ok h lo hi c m
  | _ => ov = OScalar v
  end.

(** The map at [l] holds a reference to the map at [l'] under key [s]. *)
Definition ref (h : store) (l : loc) (s : string) (l' : loc) : Prop :=
  ∃ c, h !! l = Some c ∧ c !! s = Some (OMap l').

(** The maps made from location [b] on form a forest: a map refers only to
    maps made after it, and no map is referred to twice. *)
Record forest (b : nat) (h : store) : Prop := {
  forest_later : ∀ l s l', b ≤ l → ref h l s l' → l < l' < length h;
  forest_once : ∀ l1 l2 s1 s2 l',
    b ≤ l1 → b ≤ l2 → ref h l1 s1 l' → ref h l2 s2 l' → l1 = l2 ∧ s1 = s2;
}.

(** [q] lies strictly below [p]. *)
Definition below (p q : list string) : Prop := ∃ s r, q = p ++ s :: r.

(** ** Induction over raw maps *)

#[warnings="-register-all"]
Scheme raw_mut_ind := Induction for raw Sort Prop
  with rawmap_mut_ind := Induction for rawmap Sort Prop.

(** Induction over the entries of a raw map, with the nested map of an entry
    and the remaining entries as induction hypotheses. *)
Lemma rawmap_nested_ind (P : rawmap → Prop) :
  P MNil →
  (∀ k v rest, (∀ o, v = RMap o → P o) → P rest → P (MCons k v rest)) →
  ∀ m, P m.
Proof.
  intros Hnil Hcons.
  apply (rawmap_mut_ind (λ v, ∀ o, v = RMap o → P o) P); try done.
  - intros m IH o [= <-]. done.
  - intros k v IHv rest IHrest. by apply Hcons.
Qed.

Definition is_map (v : raw) : bool :=
  match v with RMap _ => true | _ => false end.

Lemma normalize_entries_scalar (s : string) (v : raw) (rest : rawmap)
    (new : loc) (h : store) :
  is_map v = false →
  normalize_entries (MCons (KStr s) v rest) new h =
  normalize_entries rest new (alter (insert s (OScalar v)) new h).
Proof. by destruct v. Qed.

Lemma normalize_entries_map (s : string) (o rest : rawmap)
    (new : loc) (h : store) :
  normalize_entries (MCons (KStr s) (RMap o) rest) new h =
  match validateUpdateInternalProviderConfig o h with
  | (inl err, h') => (inl err, h')
  | (inr nested, h') =>
      normalize_entries rest new (alter (insert s (OMap nested)) new h')
  end.
Proof. done. Qed.

Lemma normalize_entries_nonstring (k : key) (v : raw) (rest : rawmap)
    (new : loc) (h : store) :
  is_string k = false →
  normalize_entries (MCons k v rest) new h =
  (inl (KeyTypeError (type_of k)), h).
Proof. by destruct k. Qed.

(** ** What a run leaves untouched *)

(** Whatever its outcome, the loop only grows the store, and of the maps
    that were there it writes to none but [new]. *)
Lemma normalize_entries_frame (es : rawmap) :
  ∀ new h r h',
    normalize_entries es new h = (r, h') →
    length h ≤ length h' ∧
    ∀ i, i < length h → i ≠ new → h' !! i = h !! i.
Proof.
  induction es as [|k v rest IHv IHrest] using rawmap_nested_ind;
    intros new h r h' Hrun.
  - simpl in Hrun. by simplify_eq.
  - destruct (is_string k) eqn:Hk.
    2:{ rewrite normalize_entries_nonstring in Hrun by done. by simplify_eq. }
    destruct k as [s| |]; try done.
    destruct (is_map v) eqn:Hv.
    + destruct v as [| | | | |o]; try done.
      rewrite normalize_entries_map in Hrun.
      unfold validateUpdateInternalProviderConfig in Hrun.
      destruct (normalize_entries o (length h) (h ++ [∅])) as [[err|nested] h1]
        eqn:Ho.
      all: apply (IHv o eq_refl) in Ho as [Hlen1 Hfr1];
           rewrite length_app in Hlen1; simpl in Hlen1.
      * simplify_eq. split; [lia|]. intros i Hi Hne.
        rewrite Hfr1 by (rewrite ?length_app; simpl; lia).
        by rewrite lookup_app_l.
      * apply IHrest in Hrun as [Hlen2 Hfr2].
        rewrite length_alter in Hlen2, Hfr2.
        split; [lia|]. intros i Hi Hne.
        rewrite Hfr2, list_lookup_alter_ne by (done || lia).
        rewrite Hfr1 by (rewrite ?length_app; simpl; lia).
        by rewrite lookup_app_l.
    + rewrite normalize_entries_scalar in Hrun by done.
      apply IHrest in Hrun as [Hlen2 Hfr2].
      rewrite length_alter in Hlen2, Hfr2.
      split; [lia|]. intros i Hi Hne.
      by rewrite Hfr2, list_lookup_alter_ne by (done || lia).
Qed.

(** ** The forest of output maps *)

Lemma forest_mono (b : nat) (h h2 : store) :
  (∀ l s l', b ≤ l → ref h2 l s l' → ref h l s l') →
  length h ≤ length h2 →
  forest b h → forest b h2.
Proof.
  intros Hsub Hlen [Hlater Honce]. split.
  - intros l s l' Hb Hr. apply Hsub in Hr; [|done].
    specialize (Hlater _ _ _ Hb Hr). lia.
  - intros l1 l2 s1 s2 l' Hb1 Hb2 Hr1 Hr2.
    eapply Honce; eauto.
Qed.

Lemma forest_alloc (b : nat) (h : store) : forest b h → forest b (h ++ [∅]).
Proof.
  apply forest_mono; [|rewrite length_app; lia].
  intros l s l' _ (c & Hc & Hs).
  apply lookup_snoc_Some in Hc as [[_ Hc]|[_ <-]]; [by exists c|].
  by rewrite lookup_empty in Hs.
Qed.

Lemma forest_set_scalar (b : nat) (h : store) (new : loc) (s : string)
    (v : raw) :
  forest b h → forest b (alter (insert s (OScalar v)) new h).
Proof.
  apply forest_mono; [|by rewrite length_alter].
  intros l s' l' _ (c & Hc & Hs).
  destruct (decide (l = new)) as [->|Hne].
  - rewrite list_lookup_alter_eq in Hc.
    destruct (h !! new) as [c0|] eqn:Hc0; simpl in Hc; [|done]. simplify_eq.
    exists c0. split; [done|].
    destruct (decide (s = s')) as [->|Hs'].
    + by rewrite lookup_insert_eq in Hs.
    + by rewrite lookup_insert_ne in Hs.
  - rewrite list_lookup_alter_ne in Hc by done. by exists c.
Qed.

Lemma forest_link (b : nat) (h : store) (new : loc) (s : string) (l' : loc) :
  forest b h → b ≤ new → new < l' < length h →
  (∀ l s', b ≤ l → ¬ ref h l s' l') →
  forest b (alter (insert s (OMap l')) new h).
Proof.
  intros [Hlater Honce] Hb Hl' Hfresh.
  assert (Hrefs : ∀ l s1 l1,
            ref (alter (insert s (OMap l')) new h) l s1 l1 →
            (l = new ∧ s1 = s ∧ l1 = l') ∨ ref h l s1 l1).
  { intros l s1 l1 (c & Hc & Hs).
    destruct (decide (l = new)) as [->|Hne].
    - rewrite list_lookup_alter_eq in Hc.
      destruct (h !! new) as [c0|] eqn:Hc0; simpl in Hc; [|done]. simplify_eq.
      destruct (decide (s = s1)) as [->|Hs1].
      + rewrite lookup_insert_eq in Hs. left. by simplify_eq.
      + rewrite lookup_insert_ne in Hs by done. right. by exists c0.
    - rewrite list_lookup_alter_ne in Hc by done. right. by exists c. }
  split.
  - intros l s1 l1 Hbl [(-> & -> & ->)|Hr]%Hrefs; rewrite length_alter.
    + done.
    + by eapply Hlater.
  - intros l1 l2 s1 s2 t Hb1 Hb2 [(-> & -> & ->)|Hr1]%Hrefs
      [(-> & -> & Ht)|Hr2]%Hrefs; try done.
    + by destruct (Hfresh _ _ Hb2 Hr2).
    + subst t. by destruct (Hfresh _ _ Hb1 Hr1).
    + by eapply Honce.
Qed.

(** ** The representation of a raw map by its output map *)

Lemma ents_ok_frame (h h2 : store) (lo hi lo2 hi2 : nat) :
  (∀ i, lo ≤ i < hi → h2 !! i = h !! i) → lo2 ≤ lo → hi ≤ hi2 →
  ∀ es c, ents_ok h lo hi c es → ents_ok h2 lo2 hi2 c es.
Proof.
  intros Hfr Hlo Hhi.
  induction es as [|k v rest IHv IHrest] using rawmap_nested_ind; intros c.
  - done.
  - simpl. intros [(s & -> & Hv) Hrest]. split; [|by apply IHrest].
    exists s. split; [done|]. destruct v as [| | | | |o]; try done.
    destruct Hv as (l & c' & Hcs & Hl & Hh & Hk & He).
    exists l, c'. split_and!; [done|lia|lia|by rewrite Hfr|done|].
    by apply (IHv o eq_refl).
Qed.

Lemma string_keys_cons (k : key) (v : raw) (rest : rawmap) :
  string_keys (MCons k v rest) = true →
  (∃ s, k = KStr s) ∧ (∀ o, v = RMap o → string_keys o = true) ∧
  string_keys rest = true.
Proof.
  simpl. intros [[Hk Hv]%andb_true_iff Hrest]%andb_true_iff.
  destruct k as [s| |]; try done. split_and!; [by exists s| |done].
  by intros o ->.
Qed.

Lemma distinct_keys_cons (k : key) (v : raw) (rest : rawmap) :
  distinct_keys (MCons k v rest) = true →
  mlookup rest k = None ∧ (∀ o, v = RMap o → distinct_keys o = true) ∧
  distinct_keys rest = true.
Proof.
  simpl. intros [[Hk Hv]%andb_true_iff Hrest]%andb_true_iff.
  split_and!; [by destruct (mlookup rest k)| |done]. by intros o ->.
Qed.

(** On a raw map whose keys are strings, the loop succeeds; it keeps the
    forest, and leaves in [new] the entries it was given. *)
Lemma normalize_entries_ok (es : rawmap) :
  ∀ new h c0 b,
    string_keys es = true → distinct_keys es = true →
    h !! new = Some c0 → b ≤ new → forest b h →
    ∃ h' c,
      normalize_entries es new h = (inr new, h') ∧
      forest b h' ∧
      h' !! new = Some c ∧
      (∀ s, mlookup es (KStr s) = None → c !! s = c0 !! s) ∧
      ents_ok h' (length h) (length h') c es.
Proof.
  induction es as [|k v rest IHv IHrest] using rawmap_nested_ind;
    intros new h c0 b Hsk Hdk Hnew Hb Hf.
  { exists h, c0. by simpl. }
  apply string_keys_cons in Hsk as ([s ->] & Hsv & Hsrest).
  apply distinct_keys_cons in Hdk as (Hfresh & Hdv & Hdrest).
  assert (Hlt : new < length h) by by eapply lookup_lt_Some.
  destruct (is_map v) eqn:Hv.
  - destruct v as [| | | | |o]; try done.
    rewrite normalize_entries_map. unfold validateUpdateInternalProviderConfig.
    destruct (IHv o eq_refl (length h) (h ++ [∅]) ∅ b)
      as (h1 & c1 & Hrun1 & Hf1 & Hc1 & Hk1 & He1);
      [by apply Hsv|by apply Hdv|by rewrite list_lookup_middle|lia
      |by apply forest_alloc|].
    rewrite Hrun1.
    destruct (normalize_entries_frame _ _ _ _ _ Hrun1) as [Hlen1 Hfr1].
    rewrite length_app in Hlen1, Hfr1, He1. simpl in Hlen1, Hfr1, He1.
    assert (Hold : ∀ i, i < length h → h1 !! i = h !! i).
    { intros i Hi. rewrite Hfr1 by lia. by rewrite lookup_app_l. }
    assert (Hnew1 : h1 !! new = Some c0) by by rewrite Hold.
    assert (Hf2 : forest b (alter (insert s (OMap (length h))) new h1)).
    { apply forest_link; [done|done|lia|].
      intros l s' Hbl Hr. destruct (decide (l < length h)) as [Hl|Hl].
      - destruct Hr as (c & Hc & Hs). rewrite Hold in Hc by done.
        assert (Hr : ref h l s' (length h)) by by exists c.
        pose proof (forest_later _ _ Hf _ _ _ Hbl Hr). lia.
      - pose proof (forest_later _ _ Hf1 _ _ _ Hbl Hr). lia. }
    destruct (IHrest new (alter (insert s (OMap (length h))) new h1)
                (<[s := OMap (length h)]> c0) b)
      as (h3 & c3 & Hrun3 & Hf3 & Hc3 & Hk3 & He3);
      [done|done|by rewrite list_lookup_alter_eq, Hnew1|done|done|].
    destruct (normalize_entries_frame _ _ _ _ _ Hrun3) as [Hlen3 Hfr3].
    rewrite length_alter in Hlen3, Hfr3, He3.
    assert (Hkeep : ∀ i, length h ≤ i < length h1 → h3 !! i = h1 !! i).
    { intros i Hi. rewrite Hfr3 by lia. by rewrite list_lookup_alter_ne by lia. }
    exists h3, c3. split_and!; [done..| |].
    + intros s' Hs'. simpl in Hs'.
      destruct (decide (KStr s = KStr s')) as [|Hne]; [done|].
      rewrite Hk3 by done. rewrite lookup_insert_ne; [done|congruence].
    + simpl. split.
      * exists s. split; [done|]. exists (length h), c1.
        split_and!; [|lia|lia| | |].
        -- rewrite Hk3 by done. by rewrite lookup_insert_eq.
        -- rewrite Hkeep by lia. done.
        -- intros s' Hs'. rewrite Hk1 by done. by rewrite lookup_empty.
        -- eapply (ents_ok_frame h1 h3); [|..|exact He1]; [|lia|lia].
           intros i Hi. apply Hkeep. lia.
      * eapply (ents_ok_frame h3 h3); [|..|exact He3]; [done|lia|lia].
  - rewrite normalize_entries_scalar by done.
    destruct (IHrest new (alter (insert s (OScalar v)) new h)
                (<[s := OScalar v]> c0) b)
      as (h3 & c3 & Hrun3 & Hf3 & Hc3 & Hk3 & He3);
      [done|done|by rewrite list_lookup_alter_eq, Hnew|done
      |by apply forest_set_scalar|].
    rewrite length_alter in He3.
    exists h3, c3. split_and!; [done..| |].
    + intros s' Hs'. simpl in Hs'.
      destruct (decide (KStr s = KStr s')) as [|Hne]; [done|].
      rewrite Hk3 by done. rewrite lookup_insert_ne; [done|congruence].
    + simpl. split; [|done]. exists s. split; [done|].
      assert (c3 !! s = Some (OScalar v)) as Hs.
      { rewrite Hk3 by done. by rewrite lookup_insert_eq. }
      by destruct v.
Qed.

(** ** Reading the output tree *)

Lemma oget_cons (h : store) (ov : oval) (s : string) (p : list string) :
  oget h ov (s :: p) = child h ov s ≫= λ v, oget h v p.
Proof.
  simpl. destruct ov as [v|l]; [done|]. simpl.
  destruct (h !! l) as [c|]; [|done]. simpl. by destruct (c !! s).
Qed.

Lemma oget_snoc (h : store) (ov : oval) (p : list string) (s : string) :
  oget h ov (p ++ [s]) = oget h ov p ≫= λ v, child h v s.
Proof.
  revert ov. induction p as [|t p IH]; intros ov.
  - rewrite app_nil_l, oget_cons. simpl. by destruct (child h ov s).
  - rewrite <- app_comm_cons, !oget_cons.
    destruct (child h ov t) as [v|]; [|done]. simpl. apply IH.
Qed.

Lemma oget_scalar (h : store) (v : raw) (p : list string) (l : loc) :
  oget h (OScalar v) p ≠ Some (OMap l).
Proof. by destruct p. Qed.

Lemma child_ref (h : store) (ov : oval) (s : string) (l' : loc) :
  child h ov s = Some (OMap l') → ∃ l, ov = OMap l ∧ ref h l s l'.
Proof.
  destruct ov as [v|l]; [done|]. simpl. intros Hc. exists l. split; [done|].
  destruct (h !! l) as [c|] eqn:Hl; [|done]. by exists c.
Qed.

Lemma ents_ok_lookup (h : store) (lo hi : nat) (c : cell) (es : rawmap)
    (s : string) (v : raw) :
  ents_ok h lo hi c es → mlookup es (KStr s) = Some v →
  ∃ ov, c !! s = Some ov ∧ node_ok h lo hi ov v ∧
        ∀ l, ov = OMap l → lo ≤ l < hi.
Proof.
  induction es as [|k v' rest _ IH] using rawmap_nested_ind; [done|].
  simpl. intros [(s' & -> & Hv) Hrest] Hl.
  destruct (decide (KStr s' = KStr s)) as [Heq|Hne]; [|by apply IH].
  simplify_eq. destruct v as [| | | | |o];
    try (eexists; split_and!; [exact Hv|done|done]).
  destruct Hv as (l & c' & Hcs & Hb & Hh & Hk & He).
  exists (OMap l). split_and!; [done| |by intros ? [= <-]].
  by exists l, c'.
Qed.

(** The output has, at every path, the node the input has there. *)
Lemma node_ok_same (h : store) (lo hi : nat) (p : list string) :
  ∀ ov v, node_ok h lo hi ov v → same_node (oget h ov p) (rget v p).
Proof.
  induction p as [|s p IH]; intros ov v Hn.
  - simpl. destruct v; simpl in *; try by subst.
    destruct Hn as (l & c & -> & _). by exists l.
  - rewrite oget_cons. destruct v as [| | | | |m]; simpl in *; try by subst.
    destruct Hn as (l & c & -> & Hc & Hk & He). simpl. rewrite Hc. simpl.
    destruct (mlookup m (KStr s)) as [v'|] eqn:Hm.
    + destruct (ents_ok_lookup _ _ _ _ _ _ _ He Hm) as (ov & -> & Hov & _).
      by apply IH.
    + by rewrite (Hk _ Hm).
Qed.

(** Every map below the root of the output lies in the region of the
    run. *)
Lemma node_ok_range (h : store) (lo hi : nat) (p : list string) :
  ∀ ov v l, node_ok h lo hi ov v → p ≠ [] →
            oget h ov p = Some (OMap l) → lo ≤ l < hi.
Proof.
  induction p as [|s p IH]; intros ov v l Hn Hp; [done|].
  rewrite oget_cons. destruct v as [| | | | |m]; simpl in Hn; try by subst.
  destruct Hn as (l0 & c & -> & Hc & Hk & He). simpl. rewrite Hc. simpl.
  destruct (mlookup m (KStr s)) as [v'|] eqn:Hm.
  - destruct (ents_ok_lookup _ _ _ _ _ _ _ He Hm) as (ov & -> & Hov & Hb).
    simpl. destruct p as [|t p].
    + simpl. intros [= ->]. by apply Hb.
    + by apply (IH _ v').
  - by rewrite (Hk _ Hm).
Qed.

Lemma reach_later (b : nat) (h : store) (p : list string) :
  forest b h → ∀ root l, b ≤ root →
  oget h (OMap root) p = Some (OMap l) → root ≤ l ∧ (p ≠ [] → root < l).
Proof.
  intros Hf. induction p as [|s p IH]; intros root l Hb.
  - simpl. intros [= ->]. split; [lia|done].
  - rewrite oget_cons.
    destruct (child h (OMap root) s) as [[v|l1]|] eqn:Hc; simpl; [|  |done].
    + intros H. by apply oget_scalar in H.
    + apply child_ref in Hc as (? & [= <-] & Hr).
      pose proof (forest_later _ _ Hf _ _ _ Hb Hr) as Hl1.
      intros [Hle _]%IH; [|lia]. split; [lia|]. intros _. lia.
Qed.

(** In a forest, no two paths from a root lead to the same map. *)
Lemma oget_inj (b : nat) (h : store) (root : loc) :
  forest b h → b ≤ root → ∀ p q l,
  oget h (OMap root) p = Some (OMap l) →
  oget h (OMap root) q = Some (OMap l) → p = q.
Proof.
  intros Hf Hb. induction p as [|s p IH] using rev_ind; intros q l Hp Hq.
  - simpl in Hp. injection Hp as <-. destruct q as [|t q]; [done|].
    apply (reach_later b) in Hq as [_ Hlt]; [|done..].
    specialize (Hlt ltac:(done)). lia.
  - destruct q as [|t q _] using rev_ind.
    + simpl in Hq. injection Hq as <-.
      apply (reach_later b) in Hp as [_ Hlt]; [|done..].
      assert (p ++ [s] ≠ []) as Hne by by destruct p.
      specialize (Hlt Hne). lia.
    + rewrite oget_snoc in Hp, Hq.
      destruct (oget h (OMap root) p) as [vp|] eqn:Hvp; [|done].
      destruct (oget h (OMap root) q) as [vq|] eqn:Hvq; [|done].
      simpl in Hp, Hq.
      apply child_ref in Hp as (lp & -> & Hrp).
      apply child_ref in Hq as (lq & -> & Hrq).
      pose proof (reach_later b h p Hf _ _ Hb Hvp) as [Hlp _].
      pose proof (reach_later b h q Hf _ _ Hb Hvq) as [Hlq _].
      destruct (forest_once _ _ Hf lp lq s t l) as [-> ->]; [lia|lia|done..|].
      f_equal. by eapply IH.
Qed.

(** Writing to a map changes no node that is read without passing
    through it. *)
Lemma oget_update (h : store) (l : loc) (c : cell) (q : list string) :
  ∀ ov, (∀ r t u, q = r ++ t :: u → oget h ov r ≠ Some (OMap l)) →
        oget (<[l := c]> h) ov q = oget h ov q.
Proof.
  induction q as [|s q IH]; intros ov Hoff; [done|].
  rewrite !oget_cons. destruct ov as [v|l0]; [done|]. simpl.
  assert (l ≠ l0) as Hne.
  { intros ->. by apply (Hoff [] s q). }
  rewrite list_lookup_insert_ne by done.
  destruct (h !! l0) as [c0|] eqn:Hc0; [|done]. simpl.
  destruct (c0 !! s) as [v'|] eqn:Hs; [|done]. simpl.
  apply IH. intros r t u -> Hr. apply (Hoff (s :: r) t u); [done|].
  rewrite oget_cons. simpl. by rewrite Hc0; simpl; rewrite Hs.
Qed.

(** ** Failure on a key that is not a string *)

Lemma normalize_entries_error (es : rawmap) :
  ∀ new h err h',
    normalize_entries es new h = (inl err, h') →
    ∃ k, err = KeyTypeError (type_of k) ∧ is_string k = false ∧
         key_in k es = true.
Proof.
  induction es as [|k v rest IHv IHrest] using rawmap_nested_ind;
    intros new h err h' Hrun; [done|].
  destruct (is_string k) eqn:Hk.
  2:{ rewrite normalize_entries_nonstring in Hrun by done. simplify_eq.
      exists k. split_and!; [done..|]. simpl.
      by rewrite bool_decide_eq_true_2. }
  destruct k as [s| |]; try done.
  destruct (is_map v) eqn:Hv.
  - destruct v as [| | | | |o]; try done.
    rewrite normalize_entries_map in Hrun.
    unfold validateUpdateInternalProviderConfig in Hrun.
    destruct (normalize_entries o (length h) (h ++ [∅])) as [[e|nested] h1]
      eqn:Ho.
    + simplify_eq. apply (IHv o eq_refl) in Ho as (k & -> & Hns & Hin).
      exists k. split_and!; [done..|]. simpl. rewrite Hin.
      by rewrite orb_true_r.
    + apply IHrest in Hrun as (k & -> & Hns & Hin).
      exists k. split_and!; [done..|]. simpl. rewrite Hin.
      by rewrite orb_true_r.
  - rewrite normalize_entries_scalar in Hrun by done.
    apply IHrest in Hrun as (k & -> & Hns & Hin).
    exists k. split_and!; [done..|]. simpl. rewrite Hin.
    by rewrite orb_true_r.
Qed.

Lemma normalize_entries_fails (es : rawmap) :
  nonstring_key es = true →
  ∀ new h, ∃ err h', normalize_entries es new h = (inl err, h').
Proof.
  induction es as [|k v rest IHv IHrest] using rawmap_nested_ind;
    intros Hbad new h; [done|].
  destruct (is_string k) eqn:Hk.
  2:{ rewrite normalize_entries_nonstring by done. eauto. }
  destruct k as [s| |]; try done. simpl in Hbad.
  destruct (is_map v) eqn:Hv.
  - destruct v as [| | | | |o]; try done.
    rewrite normalize_entries_map.
    unfold validateUpdateInternalProviderConfig.
    destruct (normalize_entries o (length h) (h ++ [∅])) as [[e|nested] h1]
      eqn:Ho; [eauto|].
    apply IHrest. destruct (nonstring_key o) eqn:Hbo; [|done].
    destruct (IHv o eq_refl Hbo (length h) (h ++ [∅])) as (e & h2 & He).
    congruence.
  - rewrite normalize_entries_scalar by done. apply IHrest.
    by destruct v.
Qed.

(** ** The two properties of the normalizer *)

Lemma forest_fresh_root (h : store) : forest (length h) (h ++ [∅]).
Proof.
  split.
  - intros l s l' Hb (c & Hc & Hs).
    apply lookup_snoc_Some in Hc as [[Hlt _]|[_ <-]]; [lia|].
    by rewrite lookup_empty in Hs.
  - intros l1 l2 s1 s2 l' Hb1 _ (c & Hc & Hs).
    apply lookup_snoc_Some in Hc as [[Hlt _]|[_ <-]]; [lia|].
    by rewrite lookup_empty in Hs.
Qed.

(** C2. On a raw configuration tree whose keys are strings at every depth
    (its maps being Go maps, no key occurs twice in one of them),
    normalization returns a map and no error.  The maps that existed before
    are untouched; the output has, at every path, the keys and values of the
    input; every map of the output was made by this call; no two positions of
    the output refer to the same map; and writing to one map of the output
    changes no part of the output that is not below it. *)
Theorem validate_fresh_tree (old : rawmap) (h : store) :
  string_keys old = true →
  distinct_keys old = true →
  ∃ new h',
    validateUpdateInternalProviderConfig old h = (inr new, h') ∧
    (∀ i c, h !! i = Some c → h' !! i = Some c) ∧
    (∀ p, same_node (oget h' (OMap new) p) (rget (RMap old) p)) ∧
    (∀ p l, oget h' (OMap new) p = Some (OMap l) → length h ≤ l < length h') ∧
    (∀ p q l, oget h' (OMap new) p = Some (OMap l) →
              oget h' (OMap new) q = Some (OMap l) → p = q) ∧
    (∀ p q l c, oget h' (OMap new) p = Some (OMap l) → ¬ below p q →
                oget (<[l := c]> h') (OMap new) q = oget h' (OMap new) q).
Proof.
  intros Hsk Hdk. unfold validateUpdateInternalProviderConfig.
  destruct (normalize_entries_ok old (length h) (h ++ [∅]) ∅ (length h))
    as (h' & c & Hrun & Hf & Hc & Hk & He);
    [done|done|by rewrite list_lookup_middle|done|apply forest_fresh_root|].
  destruct (normalize_entries_frame _ _ _ _ _ Hrun) as [Hlen Hfr].
  rewrite length_app in Hlen, Hfr, He. simpl in Hlen, Hfr, He.
  assert (Hroot : node_ok h' (length h + 1) (length h')
                    (OMap (length h)) (RMap old)).
  { exists (length h), c. split_and!; [done..| |done].
    intros s Hs. rewrite Hk by done. by rewrite lookup_empty. }
  assert (Hinj : ∀ p q l, oget h' (OMap (length h)) p = Some (OMap l) →
                          oget h' (OMap (length h)) q = Some (OMap l) → p = q).
  { by apply (oget_inj (length h)). }
  exists (length h), h'.
  split_and!; [done| |intros p; by eapply node_ok_same| |done|].
  - intros i c0 Hi. pose proof (lookup_lt_Some _ _ _ Hi).
    rewrite Hfr by lia. by rewrite lookup_app_l.
  - intros p l Hp. destruct p as [|s p].
    + simpl in Hp. injection Hp as <-. lia.
    + pose proof (node_ok_range _ _ _ (s :: p) _ _ _ Hroot ltac:(done) Hp). lia.
  - intros p q l c' Hp Hnb. apply oget_update.
    intros r t u -> Hr. apply Hnb.
    rewrite (Hinj _ _ _ Hp Hr). by exists t, u.
Qed.

(** C4. On a raw configuration tree with a key that is not a string, at any
    depth of nested maps, normalization returns a [KeyTypeError] for the
    runtime type of such a key of the tree, and no map; the maps that existed
    before are untouched. *)
Theorem validate_key_type_error (old : rawmap) (h : store) :
  nonstring_key old = true →
  ∃ k h',
    validateUpdateInternalProviderConfig old h
      = (inl (KeyTypeError (type_of k)), h') ∧
    is_string k = false ∧
    key_in k old = true ∧
    (∀ i c, h !! i = Some c → h' !! i = Some c).
Proof.
  intros Hbad. unfold validateUpdateInternalProviderConfig.
  destruct (normalize_entries_fails old Hbad (length h) (h ++ [∅]))
    as (err & h' & Hrun).
  destruct (normalize_entries_error _ _ _ _ _ Hrun) as (k & -> & Hk & Hin).
  destruct (normalize_entries_frame _ _ _ _ _ Hrun) as [Hlen Hfr].
  rewrite length_app in Hfr. simpl in Hfr.
  exists k, h'. split_and!; [done..|].
  intros i c0 Hi. pose proof (lookup_lt_Some _ _ _ Hi).
  rewrite Hfr by lia. by rewrite lookup_app_l.
Qed.

(** ** Scenarios *)

(** The input of [TestValidateUpdateInternalProviderConfig_NestedMap]. *)
Definition test_input : rawmap :=
  MCons (KStr "name") (RStr "my-provider")
    (MCons (KStr "database")
       (RMap (MCons (KStr "host") (RStr "localhost")
                (MCons (KStr "port") (RInt 5432) MNil)))
       MNil).

Example validate_test_scenario :
  validateUpdateInternalProviderConfig test_input []
  = (inr 0,
     [ {[ "name" := OScalar (RStr "my-provider"); "database" := OMap 1 ]};
       {[ "host" := OScalar (RStr "localhost");
          "port" := OScalar (RInt 5432) ]} ]).
Proof. vm_compute. reflexivity. Qed.

Lemma validate_fresh_tree_witness :
  ∃ new h',
    validateUpdateInternalProviderConfig test_input [] = (inr new, h') ∧
    (∀ i c, ([] : store) !! i = Some c → h' !! i = Some c) ∧
    (∀ p, same_node (oget h' (OMap new) p) (rget (RMap test_input) p)) ∧
    (∀ p l, oget h' (OMap new) p = Some (OMap l) →
            length ([] : store) ≤ l < length h') ∧
    (∀ p q l, oget h' (OMap new) p = Some (OMap l) →
              oget h' (OMap new) q = Some (OMap l) → p = q) ∧
    (∀ p q l c, oget h' (OMap new) p = Some (OMap l) → ¬ below p q →
                oget (<[l := c]> h') (OMap new) q = oget h' (OMap new) q).
Proof.
  apply (validate_fresh_tree test_input []); vm_compute; reflexivity.
Defined.

(** A nested map with the integer key 5432. *)
Definition bad_input : rawmap :=
  MCons (KStr "name") (RStr "my-provider")
    (MCons (KStr "database")
       (RMap (MCons (KStr "host") (RStr "localhost")
                (MCons (KInt 5432) (RStr "port") MNil)))
       MNil).

Lemma validate_key_type_error_witness :
  ∃ k h',
    validateUpdateInternalProviderConfig bad_input []
      = (inl (KeyTypeError (type_of k)), h') ∧
    is_string k = false ∧
    key_in k bad_input = true ∧
    (∀ i c, ([] : store) !! i = Some c → h' !! i = Some c).
Proof.
  apply (validate_key_type_error bad_input []). vm_compute. reflexivity.
Defined.

(** A sequence is passed through as it is: a map inside it is not
    normalized, and its keys are not checked. *)
Example validate_sequence_passed_through :
  validateUpdateInternalProviderConfig
    (MCons (KStr "items") (RSeq [RMap (MCons (KInt 1) (RStr "x") MNil)]) MNil)
    []
  = (inr 0,
     [ {[ "items" :=
            OScalar (RSeq [RMap (MCons (KInt 1) (RStr "x") MNil)]) ]} ]).
Proof. vm_compute. reflexivity. Qed.

(** ** The old copy inlined in the test

    [buggyValidateHelper] and [buggyValidate] of
    [TestValidateUpdateInternalProviderConfig_OldBuggyBehavior].  The helper
    copies the entries of a nested map without descending.  In the caller the
    helper's result shadows the outer [new]: [new[s] = new] stores the nested
    map into itself, [captured] keeps it, and the outer map never receives
    the key. *)
Fixpoint helper_entries (es : rawmap) (result : loc) (h : store)
    : (string + loc) * store :=
  match es with
  | MNil => (inr result, h)
  | MCons k v rest =>
      match k with
      | KStr s => helper_entries rest result (alter (insert s (OScalar v)) result h)
      | _ => (inl "key is not a string", h)
      end
  end.

Definition buggyValidateHelper (old : rawmap) (h : store)
    : (string + loc) * store :=
  helper_entries old (length h) (h ++ [∅]).

Fixpoint buggy_entries (es : rawmap) (new : loc) (captured : option loc)
    (h : store) : (string + loc * option loc) * store :=
  match es with
  | MNil => (inr (new, captured), h)
  | MCons k v rest =>
      match k with
      | KStr s =>
          match v with
          | RMap o =>
              match buggyValidateHelper o h with
              | (inl err, h') => (inl err, h')
              | (inr new', h') =>
                  buggy_entries rest new (Some new')
                    (alter (insert s (OMap new')) new' h')
              end
          | _ =>
              buggy_entries rest new captured
                (alter (insert s (OScalar v)) new h)
          end
      | _ => (inl "key is not a string", h)
      end
  end.

Definition buggyValidate (old : rawmap) (h : store)
    : (string + loc * option loc) * store :=
  buggy_entries old (length h) None (h ++ [∅]).

(** The assertions of the test: the result has no "database" key; the
    captured map holds itself under "database", one level down and two
    levels down; a write through the deeper reference shows in the captured
    map. *)
Example buggyValidate_drops_and_cycles :
  ∃ result localMap h',
    buggyValidate test_input [] = (inr (result, Some localMap), h') ∧
    oget h' (OMap result) ["name"] = Some (OScalar (RStr "my-provider")) ∧
    oget h' (OMap result) ["database"] = None ∧
    oget h' (OMap localMap) ["database"] = Some (OMap localMap) ∧
    oget h' (OMap localMap) ["database"; "database"] = Some (OMap localMap) ∧
    ∀ deeperMap,
      oget h' (OMap localMap) ["database"; "database"] = Some (OMap deeperMap) →
      oget (alter (insert "_sentinel" (OScalar (RBool true))) deeperMap h')
           (OMap localMap) ["_sentinel"]
      = Some (OScalar (RBool true)).
Proof.
  eexists _, _, _. split; [vm_compute; reflexivity|].
  split_and!; try (vm_compute; reflexivity).
  intros deeperMap [= <-]. vm_compute. reflexivity.
Qed.

(** The corrected normalizer on the same input: "database" is a map of its
    own, and the only path to it is that key. *)
Example validate_test_paths :
  ∃ new h',
    validateUpdateInternalProviderConfig test_input [] = (inr new, h') ∧
    oget h' (OMap new) ["name"] = Some (OScalar (RStr "my-provider")) ∧
    oget h' (OMap new) ["database"] = Some (OMap 1) ∧
    oget h' (OMap new) ["database"; "host"] = Some (OScalar (RStr "localhost")) ∧
    oget h' (OMap new) ["database"; "port"] = Some (OScalar (RInt 5432)) ∧
    oget h' (OMap new) ["database"; "database"] = None.
Proof.
  eexists _, _. split; [vm_compute; reflexivity|].
  split_and!; vm_compute; reflexivity.
Qed.

(** *** What the old copy does in general *)

(** The keys of the map itself are strings and pairwise distinct; what
    nested maps hold is not looked at. *)
Fixpoint top_string_keys (m : rawmap) : bool :=
  match m with
  | MNil => true
  | MCons k _ rest => is_string k && top_string_keys rest
  end.

Fixpoint top_distinct (m : rawmap) : bool :=
  match m with
  | MNil => true
  | MCons k _ rest =>
      match mlookup rest k with None => true | Some _ => false end
      && top_distinct rest
  end.

(** The same for the map and for the maps directly nested in it. *)
Fixpoint two_levels_ok (m : rawmap) : bool :=
  match m with
  | MNil => true
  | MCons k v rest =>
      is_string k
      && match mlookup rest k with None => true | Some _ => false end
      && match v with
         | RMap o => top_string_keys o && top_distinct o
         | _ => true
         end
      && two_levels_ok rest
  end.

Lemma oget_single (h : store) (l : loc) (c : cell) (s : string) :
  h !! l = Some c → oget h (OMap l) [s] = c !! s.
Proof. intros Hl. simpl. rewrite Hl. by destruct (c !! s). Qed.

Lemma helper_entries_ok (es : rawmap) :
  ∀ result h c0,
    top_string_keys es = true → top_distinct es = true →
    h !! result = Some c0 →
    ∃ h' c,
      helper_entries es result h = (inr result, h') ∧
      length h' = length h ∧
      (∀ i, i ≠ result → h' !! i = h !! i) ∧
      h' !! result = Some c ∧
      ∀ s, c !! s = match mlookup es (KStr s) with
                    | Some v => Some (OScalar v)
                    | None => c0 !! s
                    end.
Proof.
  induction es as [|k v rest _ IH] using rawmap_nested_ind;
    intros result h c0 Hsk Hdk Hc0.
  { exists h, c0. by simpl. }
  simpl in Hsk, Hdk.
  apply andb_true_iff in Hsk as [Hk Hsk].
  apply andb_true_iff in Hdk as [Hfresh Hdk].
  destruct k as [s| |]; try done. simpl.
  destruct (mlookup rest (KStr s)) eqn:Hrest; [done|].
  destruct (IH result (alter (insert s (OScalar v)) result h)
              (<[s := OScalar v]> c0))
    as (h' & c & Hrun & Hlen & Hfr & Hc & Hcs);
    [done|done|by rewrite list_lookup_alter_eq, Hc0|].
  exists h', c. split_and!; [done| | |done|].
  - by rewrite Hlen, length_alter.
  - intros i Hi. by rewrite Hfr, list_lookup_alter_ne.
  - intros s'. rewrite Hcs.
    destruct (decide (KStr s = KStr s')) as [[= <-]|Hne].
    + by rewrite Hrest, lookup_insert_eq.
    + destruct (mlookup rest (KStr s')); [done|].
      rewrite lookup_insert_ne; [done|congruence].
Qed.

Lemma helper_entries_error (es : rawmap) :
  ∀ result h,
    top_string_keys es = false →
    ∃ h', helper_entries es result h = (inl "key is not a string", h').
Proof.
  induction es as [|k v rest _ IH] using rawmap_nested_ind;
    intros result h Hsk; [done|].
  simpl in Hsk. destruct k as [s| |]; simpl.
  - by apply IH.
  - by exists h.
  - by exists h.
Qed.

(** The helper copies one level.  It succeeds exactly when the keys of the
    map itself are strings; a value is stored as it is, a nested map
    included: its keys are not checked and it is not converted. *)
Theorem buggyValidateHelper_flat_copy (o : rawmap) (h : store) :
  (top_string_keys o = true → top_distinct o = true →
     ∃ h',
       buggyValidateHelper o h = (inr (length h), h') ∧
       (∀ i c, h !! i = Some c → h' !! i = Some c) ∧
       ∀ s, oget h' (OMap (length h)) [s] = OScalar <$> mlookup o (KStr s)) ∧
  (top_string_keys o = false →
     ∃ h', buggyValidateHelper o h = (inl "key is not a string", h')).
Proof.
  unfold buggyValidateHelper. split.
  - intros Hsk Hdk.
    destruct (helper_entries_ok o (length h) (h ++ [∅]) ∅ Hsk Hdk)
      as (h' & c & Hrun & Hlen & Hfr & Hc & Hcs);
      [by rewrite list_lookup_middle|].
    exists h'. split_and!; [done| |].
    + intros i c0 Hi. pose proof (lookup_lt_Some _ _ _ Hi).
      rewrite Hfr by lia. by rewrite lookup_app_l.
    + intros s. rewrite (oget_single _ _ _ _ Hc), Hcs.
      by destruct (mlookup o (KStr s)).
  - intros Hsk. by apply helper_entries_error.
Qed.

Lemma buggy_entries_scalar (s : string) (v : raw) (rest : rawmap)
    (new : loc) (captured : option loc) (h : store) :
  is_map v = false →
  buggy_entries (MCons (KStr s) v rest) new captured h =
  buggy_entries rest new captured (alter (insert s (OScalar v)) new h).
Proof. by destruct v. Qed.

Lemma buggy_entries_ok (es : rawmap) :
  ∀ new captured h c0,
    two_levels_ok es = true → h !! new = Some c0 →
    ∃ captured' h' c,
      buggy_entries es new captured h = (inr (new, captured'), h') ∧
      length h ≤ length h' ∧
      (∀ i, i < length h → i ≠ new → h' !! i = h !! i) ∧
      h' !! new = Some c ∧
      (∀ s, c !! s = match mlookup es (KStr s) with
                     | Some v => if is_map v then c0 !! s else Some (OScalar v)
                     | None => c0 !! s
                     end) ∧
      (∀ s o, mlookup es (KStr s) = Some (RMap o) →
         ∃ l cl, length h ≤ l ∧ h' !! l = Some cl ∧ cl !! s = Some (OMap l)) ∧
      match captured' with
      | Some l =>
          captured' = captured ∨
          ∃ s o cl, mlookup es (KStr s) = Some (RMap o) ∧
                    h' !! l = Some cl ∧ cl !! s = Some (OMap l)
      | None =>
          captured = None ∧
          ∀ s v, mlookup es (KStr s) = Some v → is_map v = false
      end.
Proof.
  induction es as [|k v rest _ IH] using rawmap_nested_ind;
    intros new captured h c0 Hok Hc0.
  { exists captured, h, c0. simpl. split_and!; try done.
    destruct captured; [by left|done]. }
  simpl in Hok.
  apply andb_true_iff in Hok as [[[Hk Hfresh]%andb_true_iff Hv]%andb_true_iff
                                    Hrest].
  destruct k as [s| |]; try done.
  destruct (mlookup rest (KStr s)) eqn:Hrs; [done|].
  assert (Hlt : new < length h) by by eapply lookup_lt_Some.
  destruct (is_map v) eqn:Hmap.
  - destruct v as [| | | | |o]; try done.
    apply andb_true_iff in Hv as [Hsk Hdk]. simpl.
    unfold buggyValidateHelper.
    destruct (helper_entries_ok o (length h) (h ++ [∅]) ∅ Hsk Hdk)
      as (h1 & co & Hrun1 & Hlen1 & Hfr1 & Hco & _);
      [by rewrite list_lookup_middle|].
    rewrite Hrun1. rewrite length_app in Hlen1. simpl in Hlen1.
    assert (Hold : ∀ i, i < length h → h1 !! i = h !! i).
    { intros i Hi. rewrite Hfr1 by lia. by rewrite lookup_app_l. }
    destruct (IH new (Some (length h))
                (alter (insert s (OMap (length h))) (length h) h1) c0)
      as (captured' & h3 & c & Hrun3 & Hlen3 & Hfr3 & Hc & Hcs & Hloops & Hcap);
      [done|by rewrite list_lookup_alter_ne, Hold by lia|].
    rewrite length_alter in Hlen3, Hfr3.
    assert (Hloop : h3 !! length h = Some (<[s := OMap (length h)]> co)).
    { rewrite Hfr3 by lia. by rewrite list_lookup_alter_eq, Hco. }
    exists captured', h3, c. split_and!; [done|lia| |done| | |].
    + intros i Hi Hne. rewrite Hfr3 by lia.
      rewrite list_lookup_alter_ne by lia. by apply Hold.
    + intros s'. rewrite Hcs. simpl.
      destruct (decide (KStr s = KStr s')) as [[= <-]|Hne]; [|done].
      by rewrite Hrs.
    + intros s' o'. simpl.
      destruct (decide (KStr s = KStr s')) as [[= <-]|Hne].
      * intros _. exists (length h), (<[s := OMap (length h)]> co).
        split_and!; [lia|done|by rewrite lookup_insert_eq].
      * intros (l & cl & Hl & Hcl & Hs)%Hloops.
        rewrite length_alter in Hl. exists l, cl. split_and!; [lia|done..].
    + destruct captured' as [l|]; [|by destruct Hcap]. right.
      destruct Hcap as [[= ->]|(s' & o' & cl & Hm & Hcl & Hs)].
      * exists s, o, (<[s := OMap (length h)]> co). simpl.
        rewrite decide_True by done.
        split_and!; [done|done|by rewrite lookup_insert_eq].
      * exists s', o', cl. simpl.
        rewrite decide_False; [done|]. intros [= <-]. congruence.
  - rewrite buggy_entries_scalar by done.
    destruct (IH new captured (alter (insert s (OScalar v)) new h)
                (<[s := OScalar v]> c0))
      as (captured' & h3 & c & Hrun3 & Hlen3 & Hfr3 & Hc & Hcs & Hloops & Hcap);
      [done|by rewrite list_lookup_alter_eq, Hc0|].
    rewrite length_alter in Hlen3, Hfr3.
    exists captured', h3, c. split_and!; [done|lia| |done| | |].
    + intros i Hi Hne. rewrite Hfr3 by lia. by rewrite list_lookup_alter_ne.
    + intros s'. rewrite Hcs. simpl.
      destruct (decide (KStr s = KStr s')) as [[= <-]|Hne].
      * by rewrite Hrs, Hmap, lookup_insert_eq.
      * destruct (mlookup rest (KStr s')) as [v'|];
          [destruct (is_map v'); [|done]|];
          (rewrite lookup_insert_ne; [done|congruence]).
    + intros s' o'. simpl.
      destruct (decide (KStr s = KStr s')) as [[= <-]|Hne].
      * intros [= ->]. done.
      * intros (l & cl & Hl & Hcl & Hs)%Hloops.
        rewrite length_alter in Hl. by exists l, cl.
    + destruct captured' as [l|].
      * destruct Hcap as [Hcap|(s' & o' & cl & Hm & Hcl & Hs)]; [by left|].
        right. exists s', o', cl. simpl.
        rewrite decide_False; [done|]. intros [= <-]. congruence.
      * destruct Hcap as [-> Hall]. split; [done|].
        intros s' v'. simpl.
        destruct (decide (KStr s = KStr s')) as [[= <-]|Hne].
        -- by intros [= <-].
        -- apply Hall.
Qed.

(** The old normalizer loses every nested map.  On a map whose keys, and
    those of the maps directly nested in it, are strings, it returns a map
    that holds the entries whose value is not a map, and none of those whose
    value is a map.  Each nested map was copied into a map that holds itself
    under the key it should have been stored under, so that key can be
    followed from it any number of times; [captured] is such a map when the
    input has a nested map, and nil otherwise. *)
Theorem buggyValidate_drops_nested (old : rawmap) (h : store) :
  two_levels_ok old = true →
  ∃ result captured h',
    buggyValidate old h = (inr (result, captured), h') ∧
    (∀ i c, h !! i = Some c → h' !! i = Some c) ∧
    (∀ s, oget h' (OMap result) [s] =
          match mlookup old (KStr s) with
          | Some v => if is_map v then None else Some (OScalar v)
          | None => None
          end) ∧
    (∀ s o, mlookup old (KStr s) = Some (RMap o) →
       ∃ l, l ≠ result ∧
            ∀ n, oget h' (OMap l) (replicate n s) = Some (OMap l)) ∧
    match captured with
    | Some l =>
        ∃ s o, mlookup old (KStr s) = Some (RMap o) ∧
               oget h' (OMap l) [s] = Some (OMap l)
    | None => ∀ s v, mlookup old (KStr s) = Some v → is_map v = false
    end.
Proof.
  intros Hok. unfold buggyValidate.
  destruct (buggy_entries_ok old (length h) None (h ++ [∅]) ∅ Hok)
    as (captured & h' & c & Hrun & Hlen & Hfr & Hc & Hcs & Hloops & Hcap);
    [by rewrite list_lookup_middle|].
  rewrite length_app in Hlen, Hfr, Hloops. simpl in Hlen, Hfr, Hloops.
  exists (length h), captured, h'. split_and!; [done| | | |].
  - intros i c0 Hi. pose proof (lookup_lt_Some _ _ _ Hi).
    rewrite Hfr by lia. by rewrite lookup_app_l.
  - intros s. rewrite (oget_single _ _ _ _ Hc), Hcs.
    destruct (mlookup old (KStr s)) as [v|]; [destruct (is_map v)|]; done.
  - intros s o (l & cl & Hl & Hcl & Hs)%Hloops. exists l. split; [lia|].
    intros n. induction n as [|n IHn]; [done|].
    change (replicate (S n) s) with (s :: replicate n s).
    rewrite oget_cons. simpl. by rewrite Hcl; simpl; rewrite Hs.
  - destruct captured as [l|]; [|by destruct Hcap].
    destruct Hcap as [|(s & o & cl & Hm & Hcl & Hs)]; [done|].
    exists s, o. split; [done|]. by rewrite (oget_single _ _ _ _ Hcl).
Qed.

Lemma buggyValidate_drops_nested_witness :
  ∃ result captured h',
    buggyValidate test_input [] = (inr (result, captured), h') ∧
    (∀ i c, ([] : store) !! i = Some c → h' !! i = Some c) ∧
    (∀ s, oget h' (OMap result) [s] =
          match mlookup test_input (KStr s) with
          | Some v => if is_map v then None else Some (OScalar v)
          | None => None
          end) ∧
    (∀ s o, mlookup test_input (KStr s) = Some (RMap o) →
       ∃ l, l ≠ result ∧
            ∀ n, oget h' (OMap l) (replicate n s) = Some (OMap l)) ∧
    match captured with
    | Some l =>
        ∃ s o, mlookup test_input (KStr s) = Some (RMap o) ∧
               oget h' (OMap l) [s] = Some (OMap l)
    | None => ∀ s v, mlookup test_input (KStr s) = Some v → is_map v = false
    end.
Proof.
  apply (buggyValidate_drops_nested test_input []). vm_compute. reflexivity.
Defined.

End ConfigNorm.

(* ===================================================================== *)
(** * The tree-sitter service client                                      *)
(* ===================================================================== *)

Module TreeSitter.

(** ** Data *)

(** [*tree_sitter.QueryError]. *)
Record QueryError := mkQueryError { Message : string }.

(** Go [error] values that travel through the service client. *)
Inductive error : Type :=
| OSError (msg : string)             (* from [os] and [path/filepath] *)
| YAMLError (msg : string)           (* from [yaml.Unmarshal] *)
| SchemaError (msg : string)         (* from [provider.ToProviderCap] *)
| OfQueryError (e : QueryError)      (* a [*tree_sitter.QueryError] as an [error] *)
| ContextCanceled                    (* [context.Canceled] *)
| Errorf (msg : string)              (* [fmt.Errorf] *)
| Errorfw (msg : string) (wrapped : error).   (* [fmt.Errorf] with [%w] *)

(** [context.Context]: [Err n] is what [ctx.Err()] answers when it is asked
    before the [n]-th visit of a walk. *)
Record Context := mkContext { Err : nat → option error }.

Definition Background : Context := mkContext (λ _, None).
Definition CanceledContext : Context := mkContext (λ _, Some ContextCanceled).

(** [tree_sitter.Point] and [*tree_sitter.Node], as far as the client reads
    them. *)
Record Point := mkPoint { Row : N; Column : N }.
Record Node := mkNode { StartPosition : Point; EndPosition : Point }.

(** [provider.Position], [provider.Location], [provider.IncidentContext] and
    [provider.ProviderEvaluateResponse].  [Line] and [Character] are
    [float64] in Go; they hold the unsigned row and column. *)
Record Position := mkPosition { Line : N; Character : N }.
Record Location_ := mkLocation { LocStart : Position; LocEnd : Position }.
Record IncidentContext := mkIncident {
  FileURI : string;
  CodeLocation : option Location_;
  Variables : gmap string string;
}.
Record ProviderEvaluateResponse := mkResponse {
  Matched : bool;
  Incidents : list IncidentContext;
}.

(** [provider.ProviderEvaluateResponse{}] *)
Definition zeroResponse : ProviderEvaluateResponse := mkResponse false [].

(** [queryCondition]: [cond.Query.Language] and [cond.Query.Query]. *)
Record queryCondition := mkQueryCondition {
  Query_Language : string;
  Query_Query : string;
}.

(** One call of the [filepath.WalkFunc]: [walkFn(path, info, nil)] with
    [info.IsDir()], or [walkFn(path, info, err)] with [err != nil]. *)
Inductive WalkVisit : Type :=
| VisitOk (path : string) (isDir : bool)
| VisitErr (path : string) (err : error).

(** The condition types and evaluator functions the capabilities are built
    from. *)
Inductive ConditionType : Type :=
| ReferencedCondition | NoOpCondition | echoConditionT | queryConditionT.
Inductive EvaluatorFn : Type :=
| EvaluateReferenced | EvaluateNoOp | FnEvaluateEcho | FnEvaluateQuery.

#[global] Instance EvaluatorFn_eq_dec : EqDecision EvaluatorFn.
Proof. solve_decision. Defined.

(** A [logr.Logger] is rendered by the entries [log.Error] has received. *)
Definition Logger : Type := list (error * string).

Section Client.

(** *** External collaborators

    The handles of the tree-sitter binding, and the library functions the
    client calls.  [filepath_Walk_visits root] lists the calls [filepath.Walk]
    makes on [root] for a callback that returns [nil] every time. *)
Variables Language Tree Query Capability Reflector : Type.
Variable yaml_Unmarshal : list Byte.byte → error + queryCondition.
Variable filepath_Walk_visits : string → list WalkVisit.
Variable os_ReadFile : string → error + list Byte.byte.
Variable filepath_Ext : string → string.
Variable parser_Parse : Language → list Byte.byte → Tree.
Variable tree_sitter_NewQuery : Language → string → QueryError + Query.
Variable cursor_Captures : Query → Tree → list Byte.byte → list Node.
Variable uri_New : string → string.
Variable openapi3_NewReflector : Reflector.
Variable provider_ToProviderCap :
  Reflector → ConditionType → string → Reflector * (error + Capability).

(** [base.LSPServiceClientCapability] *)
Record LSPServiceClientCapability := mkCapability {
  Cap : Capability;
  Fn : EvaluatorFn;
}.

(** [TreeSitterServiceClient], the fields [Init] sets up for the
    evaluators. *)
Record TreeSitterServiceClient := mkClient {
  Location : string;
  TreeSitterLanguages : gmap string Language;
  ExtMap : gmap string string;
  NodeCache : gmap string Node;
  LastModified : gmap string Z;
}.

(** *** Methods on [*TreeSitterServiceClient]

    A method receives the client by pointer: it is a function from the
    client's state to a result and the state it leaves. *)
Definition M (A : Type) : Type :=
  TreeSitterServiceClient → A * TreeSitterServiceClient.

Definition ret {A} (a : A) : M A := λ sc, (a, sc).
Definition bind {A B} (m : M A) (k : A → M B) : M B :=
  λ sc, let '(a, sc') := m sc in k a sc'.
Definition gets {A} (field : TreeSitterServiceClient → A) : M A :=
  λ sc, (field sc, sc).

Notation "x ←ₘ m ;; k" := (bind m (λ x, k))
  (at level 100, m at next level, k at level 200, right associativity,
   format "'[v' x  ←ₘ  m  ;;  '/' k ']'").

(** [filepath.Walk(root, fn)]: the callback is called visit after visit and
    the walk stops at the first error it returns.  [a] is the state the
    closure captures. *)
Fixpoint walkVisits {A}
    (fn : WalkVisit → A → M (option error * A))
    (visits : list WalkVisit) (a : A) : M (option error * A) :=
  match visits with
  | [] => ret (None, a)
  | v :: visits' =>
      r ←ₘ fn v a ;;
      match r.1 with
      | Some err => ret (Some err, r.2)
      | None => walkVisits fn visits' r.2
      end
  end.

Definition filepath_Walk {A} (root : string)
    (fn : WalkVisit → A → M (option error * A)) (a : A) : M (option error * A) :=
  walkVisits fn (filepath_Walk_visits root) a.

(** The incident of one capture. *)
Definition incidentOf (path : string) (node : Node) : IncidentContext :=
  mkIncident
    (uri_New ("file://" +:+ path))
    (Some (mkLocation
       (mkPosition (Row (StartPosition node)) (Column (StartPosition node)))
       (mkPosition (Row (EndPosition node)) (Column (EndPosition node)))))
    ∅.

(** The closure [EvaluateQuery] hands to [filepath.Walk]; [incidents] is the
    variable it captures. *)
Definition queryWalkFn (cond : queryCondition) (tsLanguage : Language)
    (v : WalkVisit) (incidents : list IncidentContext)
    : M (option error * list IncidentContext) :=
  match v with
  | VisitErr path err => ret (Some err, incidents)
  | VisitOk path isDir =>
      if isDir then ret (None, incidents)
      else
        extMap ←ₘ gets ExtMap ;;
        match extMap !! Query_Language cond with
        | None => ret (None, incidents)
        | Some ext =>
            if decide (filepath_Ext path ≠ ext) then ret (None, incidents)
            else
              match os_ReadFile path with
              | inl err => ret (Some err, incidents)
              | inr src =>
                  (* [err] is the callback's own variable, nil from here on *)
                  let err : option error := None in
                  let tree := parser_Parse tsLanguage src in
                  match tree_sitter_NewQuery tsLanguage (Query_Query cond) with
                  | inl queryErr => ret (err, incidents)
                  | inr query =>
                      let captures := cursor_Captures query tree src in
                      ret (None, incidents ++ (incidentOf path <$> captures))
                  end
              end
        end
  end.

(** [func (sc *TreeSitterServiceClient) EvaluateQuery(ctx, cap, info)] *)
Definition EvaluateQuery (ctx : Context) (cap : string) (info : list Byte.byte)
    : M (ProviderEvaluateResponse * option error) :=
  match yaml_Unmarshal info with
  | inl err =>
      ret (zeroResponse,
           Some (Errorfw "error unmarshaling query info: %w" err))
  | inr cond =>
      languages ←ₘ gets TreeSitterLanguages ;;
      match languages !! Query_Language cond with
      | None => ret (zeroResponse, Some (Errorf "language not supported"))
      | Some tsLanguage =>
          root ←ₘ gets Location ;;
          r ←ₘ filepath_Walk root (queryWalkFn cond tsLanguage) [] ;;
          match r.1 with
          | Some err => ret (zeroResponse, Some err)
          | None =>
              if decide (0 < length r.2)
              then ret (mkResponse true r.2, None)
              else ret (zeroResponse, None)
          end
      end
  end.

(** [GetGenericServiceClientCapabilities(log)]: the capability slice, and the
    logger with what it was told. *)
Definition GetGenericServiceClientCapabilities (log : Logger)
    : list LSPServiceClientCapability * Logger :=
  let caps := [] in
  let r := openapi3_NewReflector in
  let '(r, res) := provider_ToProviderCap r ReferencedCondition "referenced" in
  let '(caps, log) :=
    match res with
    | inl err => (caps, log ++ [(err, "unable to get referenced cap")])
    | inr refCap => (caps ++ [mkCapability refCap EvaluateReferenced], log)
    end in
  let '(r, res) := provider_ToProviderCap r NoOpCondition "dependency" in
  let '(caps, log) :=
    match res with
    | inl err => (caps, log ++ [(err, "unable to get referenced cap")])
    | inr depCap => (caps ++ [mkCapability depCap EvaluateNoOp], log)
    end in
  let '(r, res) := provider_ToProviderCap r echoConditionT "echo" in
  let '(caps, log) :=
    match res with
    | inl err => (caps, log ++ [(err, "unable to get echo cap")])
    | inr echoCap => (caps ++ [mkCapability echoCap FnEvaluateEcho], log)
    end in
  let '(r, res) := provider_ToProviderCap r queryConditionT "query" in
  let '(caps, log) :=
    match res with
    | inl err => (caps, log ++ [(err, "unable to get query cap")])
    | inr queryCap => (caps ++ [mkCapability queryCap FnEvaluateQuery], log)
    end in
  (caps, log).

(** ** Specification vocabulary *)

(** A method leaves the client as it found it. *)
Definition preserves {A} (m : M A) : Prop := ∀ sc, (m sc).2 = sc.

(** The path of a visit the evaluator parses: a regular file whose extension
    is the one registered for the condition's language. *)
Definition is_target (sc : TreeSitterServiceClient) (cond : queryCondition)
    (v : WalkVisit) : option string :=
  match v with
  | VisitOk path false =>
      match ExtMap sc !! Query_Language cond with
      | Some ext => if decide (filepath_Ext path = ext) then Some path else None
      | None => None
      end
  | _ => None
  end.

Definition target_files (sc : TreeSitterServiceClient) (cond : queryCondition)
    : list string :=
  omap (is_target sc cond) (filepath_Walk_visits (Location sc)).

(** The nodes the condition's query captures in one file: none when the
    file cannot be read or the query does not compile. *)
Definition query_matches (cond : queryCondition) (tsLanguage : Language)
    (path : string) : list Node :=
  match os_ReadFile path, tree_sitter_NewQuery tsLanguage (Query_Query cond) with
  | inr src, inr query => cursor_Captures query (parser_Parse tsLanguage src) src
  | _, _ => []
  end.

(** One incident per capture, file after file in the order of the walk. *)
Definition accumulated (sc : TreeSitterServiceClient) (cond : queryCondition)
    (tsLanguage : Language) : list IncidentContext :=
  path ← target_files sc cond;
  incidentOf path <$> query_matches cond tsLanguage path.

(** The error a visit makes the callback return, if any. *)
Definition visit_error (sc : TreeSitterServiceClient) (cond : queryCondition)
    (v : WalkVisit) : option error :=
  match v with
  | VisitErr _ err => Some err
  | VisitOk _ _ =>
      match is_target sc cond v with
      | Some path =>
          match os_ReadFile path with inl err => Some err | inr _ => None end
      | None => None
      end
  end.

Definition visit_incidents (sc : TreeSitterServiceClient)
    (cond : queryCondition) (tsLanguage : Language) (v : WalkVisit)
    : list IncidentContext :=
  match is_target sc cond v with
  | Some path => incidentOf path <$> query_matches cond tsLanguage path
  | None => []
  end.

(** What a walk returns, visit by visit. *)
Fixpoint walk_outcome (sc : TreeSitterServiceClient) (cond : queryCondition)
    (tsLanguage : Language) (visits : list WalkVisit)
    (incidents : list IncidentContext)
    : option error * list IncidentContext :=
  match visits with
  | [] => (None, incidents)
  | v :: visits' =>
      match visit_error sc cond v with
      | Some err => (Some err, incidents)
      | None =>
          walk_outcome sc cond tsLanguage visits'
            (incidents ++ visit_incidents sc cond tsLanguage v)
      end
  end.

(** Where an error returned by [EvaluateQuery] comes from. *)
Definition error_origin (sc : TreeSitterServiceClient) (info : list Byte.byte)
    (e : error) : Prop :=
  (∃ err, yaml_Unmarshal info = inl err ∧
          e = Errorfw "error unmarshaling query info: %w" err) ∨
  e = Errorf "language not supported" ∨
  (∃ path, VisitErr path e ∈ filepath_Walk_visits (Location sc)) ∨
  (∃ cond path, yaml_Unmarshal info = inr cond ∧
                path ∈ target_files sc cond ∧ os_ReadFile path = inl e).

(** The capability constructors of [GetGenericServiceClientCapabilities], in
    the order of the source. *)
Definition constructors : list (ConditionType * string * EvaluatorFn) :=
  [ (ReferencedCondition, "referenced", EvaluateReferenced);
    (NoOpCondition, "dependency", EvaluateNoOp);
    (echoConditionT, "echo", FnEvaluateEcho);
    (queryConditionT, "query", FnEvaluateQuery) ].

(** What each constructor answers, the reflector passed from call to
    call. *)
Fixpoint outcomes (r : Reflector)
    (cs : list (ConditionType * string * EvaluatorFn))
    : list (EvaluatorFn * (error + Capability)) :=
  match cs with
  | [] => []
  | (c, name, fn) :: cs' =>
      (fn, (provider_ToProviderCap r c name).2)
        :: outcomes (provider_ToProviderCap r c name).1 cs'
  end.

Definition registered (o : EvaluatorFn * (error + Capability))
    : option LSPServiceClientCapability :=
  match o.2 with
  | inr c => Some (mkCapability c o.1)
  | inl _ => None
  end.

(** ** The walk *)

Lemma queryWalkFn_run (cond : queryCondition) (tsLanguage : Language)
    (v : WalkVisit) (incidents : list IncidentContext)
    (sc : TreeSitterServiceClient) :
  queryWalkFn cond tsLanguage v incidents sc =
  (match visit_error sc cond v with
   | Some err => (Some err, incidents)
   | None => (None, incidents ++ visit_incidents sc cond tsLanguage v)
   end, sc).
Proof.
  unfold queryWalkFn, visit_error, visit_incidents, is_target, query_matches.
  destruct v as [path [|]|path err]; simpl; unfold ret, bind, gets; simpl;
    rewrite ?app_nil_r; try done.
  destruct (ExtMap sc !! Query_Language cond) as [ext|]; simpl;
    rewrite ?app_nil_r; [|done].
  destruct (decide (filepath_Ext path ≠ ext)) as [Hne|Heq].
  - rewrite decide_False by done. by rewrite app_nil_r.
  - rewrite decide_True by (by destruct (decide (filepath_Ext path = ext))).
    destruct (os_ReadFile path) as [err|src]; [done|].
    destruct (tree_sitter_NewQuery tsLanguage (Query_Query cond)); simpl;
      by rewrite ?app_nil_r.
Qed.

Lemma walkVisits_run (cond : queryCondition) (tsLanguage : Language)
    (visits : list WalkVisit) (incidents : list IncidentContext)
    (sc : TreeSitterServiceClient) :
  walkVisits (queryWalkFn cond tsLanguage) visits incidents sc =
  (walk_outcome sc cond tsLanguage visits incidents, sc).
Proof.
  revert incidents. induction visits as [|v visits IH]; intros incidents.
  - done.
  - simpl. unfold bind. rewrite queryWalkFn_run.
    destruct (visit_error sc cond v) as [err|]; simpl; [done|]. apply IH.
Qed.

Lemma walk_outcome_error (sc : TreeSitterServiceClient) (cond : queryCondition)
    (tsLanguage : Language) (visits : list WalkVisit)
    (incidents incidents' : list IncidentContext) (e : error) :
  walk_outcome sc cond tsLanguage visits incidents = (Some e, incidents') →
  ∃ v, v ∈ visits ∧ visit_error sc cond v = Some e.
Proof.
  revert incidents. induction visits as [|v visits IH]; intros incidents; simpl.
  - done.
  - destruct (visit_error sc cond v) as [err|] eqn:Hv.
    + intros [= -> _]. exists v. split; [left|done].
    + intros (v' & Hin & Hv')%IH. exists v'. split; [by right|done].
Qed.

Lemma walk_outcome_ok (sc : TreeSitterServiceClient) (cond : queryCondition)
    (tsLanguage : Language) (visits : list WalkVisit)
    (incidents incidents' : list IncidentContext) :
  walk_outcome sc cond tsLanguage visits incidents = (None, incidents') →
  Forall (λ v, visit_error sc cond v = None) visits ∧
  incidents' = incidents ++ (v ← visits; visit_incidents sc cond tsLanguage v).
Proof.
  revert incidents. induction visits as [|v visits IH]; intros incidents; simpl.
  - intros [= <-]. by rewrite app_nil_r.
  - destruct (visit_error sc cond v) as [err|] eqn:Hv; [done|].
    intros [Hall ->]%IH. split; [by constructor|]. by rewrite <- app_assoc.
Qed.

Lemma walk_outcome_no_error (sc : TreeSitterServiceClient)
    (cond : queryCondition) (tsLanguage : Language) (visits : list WalkVisit)
    (incidents : list IncidentContext) :
  Forall (λ v, visit_error sc cond v = None) visits →
  walk_outcome sc cond tsLanguage visits incidents =
  (None, incidents ++ (v ← visits; visit_incidents sc cond tsLanguage v)).
Proof.
  intros Hall. revert incidents.
  induction Hall as [|v visits Hv _ IH]; intros incidents; simpl.
  - by rewrite app_nil_r.
  - by rewrite Hv, IH, <- app_assoc.
Qed.

Lemma accumulated_visits (sc : TreeSitterServiceClient) (cond : queryCondition)
    (tsLanguage : Language) :
  accumulated sc cond tsLanguage =
  (v ← filepath_Walk_visits (Location sc);
   visit_incidents sc cond tsLanguage v).
Proof.
  unfold accumulated, target_files, visit_incidents.
  induction (filepath_Walk_visits (Location sc)) as [|v visits IH]; [done|].
  rewrite bind_cons, <- IH.
  change (omap (is_target sc cond) (v :: visits))
    with (match is_target sc cond v with
          | Some p => p :: omap (is_target sc cond) visits
          | None => omap (is_target sc cond) visits
          end).
  destruct (is_target sc cond v) as [path|]; [by rewrite bind_cons|done].
Qed.

Lemma visit_error_origin (sc : TreeSitterServiceClient) (cond : queryCondition)
    (info : list Byte.byte) (v : WalkVisit) (e : error) :
  yaml_Unmarshal info = inr cond →
  v ∈ filepath_Walk_visits (Location sc) → visit_error sc cond v = Some e →
  error_origin sc info e.
Proof.
  intros Hy Hin Hv. unfold error_origin. destruct v as [path isDir|path err].
  - right. right. right. unfold visit_error in Hv.
    destruct (is_target sc cond (VisitOk path isDir)) as [p|] eqn:Ht; [|done].
    exists cond, p. split_and!; [done| |].
    + apply list_elem_of_omap. eauto.
    + by destruct (os_ReadFile p) as [err|]; simplify_eq.
  - right. right. left. exists path. simpl in Hv. by simplify_eq.
Qed.

(** [EvaluateQuery] as a function of the walk's outcome. *)
Lemma EvaluateQuery_run (ctx : Context) (cap : string) (info : list Byte.byte)
    (sc : TreeSitterServiceClient) :
  EvaluateQuery ctx cap info sc =
  (match yaml_Unmarshal info with
   | inl err =>
       (zeroResponse, Some (Errorfw "error unmarshaling query info: %w" err))
   | inr cond =>
       match TreeSitterLanguages sc !! Query_Language cond with
       | None => (zeroResponse, Some (Errorf "language not supported"))
       | Some tsLanguage =>
           let r := walk_outcome sc cond tsLanguage
                      (filepath_Walk_visits (Location sc)) [] in
           match r.1 with
           | Some err => (zeroResponse, Some err)
           | None =>
               if decide (0 < length r.2) then (mkResponse true r.2, None)
               else (zeroResponse, None)
           end
       end
   end, sc).
Proof.
  unfold EvaluateQuery. destruct (yaml_Unmarshal info) as [err|cond]; [done|].
  unfold bind, gets, ret; simpl.
  destruct (TreeSitterLanguages sc !! Query_Language cond) as [ts|]; [|done].
  unfold filepath_Walk. rewrite walkVisits_run. simpl.
  destruct (walk_outcome _ _ _ _ _) as [[e|] incidents]; simpl; [done|].
  by destruct (decide (0 < length incidents)).
Qed.

(** ** Properties of [EvaluateQuery] *)

Lemma is_target_ExtMap (sc sc' : TreeSitterServiceClient)
    (cond : queryCondition) (v : WalkVisit) :
  ExtMap sc = ExtMap sc' → is_target sc cond v = is_target sc' cond v.
Proof. intros H. unfold is_target. by rewrite H. Qed.

Lemma walk_outcome_ExtMap (sc sc' : TreeSitterServiceClient)
    (cond : queryCondition) (tsLanguage : Language) (visits : list WalkVisit)
    (incidents : list IncidentContext) :
  ExtMap sc = ExtMap sc' →
  walk_outcome sc cond tsLanguage visits incidents =
  walk_outcome sc' cond tsLanguage visits incidents.
Proof.
  intros H. revert incidents.
  induction visits as [|v visits IH]; intros incidents; simpl; [done|].
  unfold visit_error, visit_incidents.
  rewrite !(is_target_ExtMap sc sc' cond v H).
  destruct v as [path isDir|path err]; [|done].
  destruct (is_target sc' cond (VisitOk path isDir)) as [p|]; [|apply IH].
  destruct (os_ReadFile p); [done|apply IH].
Qed.

(** When no error stops it, the evaluation returns the incidents of every
    target file of the walk. *)
Lemma EvaluateQuery_no_error (ctx : Context) (cap : string)
    (info : list Byte.byte) (sc : TreeSitterServiceClient)
    (cond : queryCondition) (tsLanguage : Language) :
  yaml_Unmarshal info = inr cond →
  TreeSitterLanguages sc !! Query_Language cond = Some tsLanguage →
  Forall (λ v, visit_error sc cond v = None)
         (filepath_Walk_visits (Location sc)) →
  EvaluateQuery ctx cap info sc =
  (if decide (0 < length (accumulated sc cond tsLanguage))
   then (mkResponse true (accumulated sc cond tsLanguage), None)
   else (zeroResponse, None), sc).
Proof.
  intros Hy Hl Hall. rewrite EvaluateQuery_run, Hy, Hl.
  rewrite (walk_outcome_no_error _ _ _ _ _ Hall). simpl.
  by rewrite accumulated_visits.
Qed.

(** A query that does not compile is skipped in every file: the callback
    returns its own nil [err], and the evaluation reports no match and no
    error. *)
Lemma EvaluateQuery_swallows_compile_error (ctx : Context) (cap : string)
    (info : list Byte.byte) (sc : TreeSitterServiceClient)
    (cond : queryCondition) (tsLanguage : Language) (queryErr : QueryError) :
  yaml_Unmarshal info = inr cond →
  TreeSitterLanguages sc !! Query_Language cond = Some tsLanguage →
  tree_sitter_NewQuery tsLanguage (Query_Query cond) = inl queryErr →
  Forall (λ v, visit_error sc cond v = None)
         (filepath_Walk_visits (Location sc)) →
  EvaluateQuery ctx cap info sc = ((zeroResponse, None), sc).
Proof.
  intros Hy Hl Hq Hall.
  rewrite (EvaluateQuery_no_error _ _ _ _ _ _ Hy Hl Hall).
  assert (accumulated sc cond tsLanguage = []) as ->; [|done].
  unfold accumulated, query_matches. rewrite Hq.
  induction (target_files sc cond) as [|p ps IH]; [done|].
  rewrite bind_cons, IH. by destruct (os_ReadFile p).
Qed.

(** C6. Every evaluation that returns no error went through decoding, the
    language lookup and the whole walk without a walk or read error, and its
    response is [Matched = true] with the accumulated incidents when there is
    at least one, and [Matched = false] with no incident otherwise. *)
Theorem EvaluateQuery_success_response (ctx : Context) (cap : string)
    (info : list Byte.byte) (sc sc' : TreeSitterServiceClient)
    (resp : ProviderEvaluateResponse) :
  EvaluateQuery ctx cap info sc = ((resp, None), sc') →
  ∃ cond tsLanguage,
    yaml_Unmarshal info = inr cond ∧
    TreeSitterLanguages sc !! Query_Language cond = Some tsLanguage ∧
    Forall (λ v, visit_error sc cond v = None)
           (filepath_Walk_visits (Location sc)) ∧
    (accumulated sc cond tsLanguage ≠ [] →
       resp = mkResponse true (accumulated sc cond tsLanguage)) ∧
    (accumulated sc cond tsLanguage = [] → resp = mkResponse false []).
Proof.
  rewrite EvaluateQuery_run. intros H.
  destruct (yaml_Unmarshal info) as [err|cond]; [by simplify_eq|].
  destruct (TreeSitterLanguages sc !! Query_Language cond) as [ts|] eqn:Hl;
    [|by simplify_eq].
  exists cond, ts. split_and!; try done.
  all: destruct (walk_outcome sc cond ts _ []) as [[e|] incidents] eqn:Hw;
    simpl in H; [by simplify_eq|].
  all: apply walk_outcome_ok in Hw as [Hall ->]; simpl in H.
  all: rewrite <- accumulated_visits in H.
  - done.
  - intros Hne. destruct (decide (0 < length (accumulated sc cond ts))) as [|Hz].
    + by simplify_eq.
    + destruct (accumulated sc cond ts); [done|]. simpl in Hz. lia.
  - intros Hnil. rewrite Hnil in H. simpl in H. by simplify_eq.
Qed.

(** C7. When the decoded condition names a language for which the client has
    no registered grammar, whatever its extension table holds, the evaluation
    fails with the error "language not supported" and returns the zero
    response. *)
Theorem EvaluateQuery_unsupported_language (ctx : Context) (cap : string)
    (info : list Byte.byte) (sc : TreeSitterServiceClient)
    (cond : queryCondition) :
  yaml_Unmarshal info = inr cond →
  TreeSitterLanguages sc !! Query_Language cond = None →
  EvaluateQuery ctx cap info sc =
  ((zeroResponse, Some (Errorf "language not supported")), sc).
Proof. intros Hy Hl. by rewrite EvaluateQuery_run, Hy, Hl. Qed.

(** C5, as the code has it.  [EvaluateQuery] never asks its context: the
    result is the same for every context, canceled or not, and every error it
    returns is the decoding error, "language not supported", an error
    [filepath.Walk] handed to the callback, or an error of [os.ReadFile];
    none is made from the context. *)
Theorem EvaluateQuery_ignores_context (ctx ctx' : Context) (cap : string)
    (info : list Byte.byte) (sc : TreeSitterServiceClient) :
  EvaluateQuery ctx cap info sc = EvaluateQuery ctx' cap info sc ∧
  ∀ resp e sc', EvaluateQuery ctx cap info sc = ((resp, Some e), sc') →
                error_origin sc info e.
Proof.
  split; [by rewrite !EvaluateQuery_run|].
  intros resp e sc'. rewrite EvaluateQuery_run. intros H.
  destruct (yaml_Unmarshal info) as [err|cond] eqn:Hy.
  { left. exists err. split; [done|]. by simplify_eq. }
  destruct (TreeSitterLanguages sc !! Query_Language cond) as [ts|].
  2:{ right. left. by simplify_eq. }
  destruct (walk_outcome sc cond ts _ []) as [[e'|] incidents] eqn:Hw;
    simpl in H.
  - apply walk_outcome_error in Hw as (v & Hin & Hv).
    assert (e' = e) as -> by by simplify_eq.
    by eapply visit_error_origin.
  - by destruct (decide (0 < length incidents)); simplify_eq.
Qed.

(** C10. [EvaluateQuery] leaves the client as it found it, the language and
    extension tables and both caches included, and its result does not depend
    on what the caches hold. *)
Theorem EvaluateQuery_frame (ctx : Context) (cap : string)
    (info : list Byte.byte) :
  preserves (EvaluateQuery ctx cap info) ∧
  ∀ sc nodeCache lastModified,
    (EvaluateQuery ctx cap info
       (mkClient (Location sc) (TreeSitterLanguages sc) (ExtMap sc)
                 nodeCache lastModified)).1
    = (EvaluateQuery ctx cap info sc).1.
Proof.
  split.
  - intros sc. by rewrite EvaluateQuery_run.
  - intros sc nodeCache lastModified. rewrite !EvaluateQuery_run. simpl.
    destruct (yaml_Unmarshal info) as [err|cond]; [done|].
    destruct (TreeSitterLanguages sc !! Query_Language cond) as [ts|]; [|done].
    by rewrite (walk_outcome_ExtMap _ sc).
Qed.

(** ** Properties of [GetGenericServiceClientCapabilities] *)

(** C8. Each of the four capability constructors is called, whatever the
    earlier ones answered.  The slice holds exactly the capabilities whose
    constructor succeeded, in the order of the source; a constructor that
    fails is logged and only its capability is missing. *)
Theorem capabilities_isolated (log : Logger) :
  let os := outcomes openapi3_NewReflector constructors in
  let caps := (GetGenericServiceClientCapabilities log).1 in
  let log' := (GetGenericServiceClientCapabilities log).2 in
  fst <$> os =
    [EvaluateReferenced; EvaluateNoOp; FnEvaluateEcho; FnEvaluateQuery] ∧
  caps = omap registered os ∧
  (∀ fn c, (fn, inr c) ∈ os → mkCapability c fn ∈ caps) ∧
  (∀ fn err, (fn, inl err) ∈ os →
     (∃ msg, (err, msg) ∈ log') ∧ ∀ cap, cap ∈ caps → Fn cap ≠ fn).
Proof.
  unfold GetGenericServiceClientCapabilities, constructors. cbn [outcomes].
  destruct (provider_ToProviderCap openapi3_NewReflector
              ReferencedCondition "referenced") as [r1 o1]. cbn [fst snd].
  destruct (provider_ToProviderCap r1 NoOpCondition "dependency") as [r2 o2].
  cbn [fst snd].
  destruct (provider_ToProviderCap r2 echoConditionT "echo") as [r3 o3].
  cbn [fst snd].
  destruct (provider_ToProviderCap r3 queryConditionT "query") as [r4 o4].
  cbv zeta. split; [done|].
  destruct o1 as [e1|c1], o2 as [e2|c2], o3 as [e3|c3], o4 as [e4|c4];
    cbn -[elem_of]; (split; [done|]); split.
  all: intros fn x Hin;
    repeat (apply elem_of_cons in Hin as [Hin|Hin]; [simplify_eq|]);
    try (by apply elem_of_nil in Hin).
  all: try (split; [eexists; set_solver|];
            intros cap Hcap;
            repeat (apply elem_of_cons in Hcap as [->|Hcap]; [done|]);
            by apply elem_of_nil in Hcap).
  all: set_solver.
Qed.

(** ** Further properties of [EvaluateQuery] *)

Lemma walk_outcome_app (sc : TreeSitterServiceClient) (cond : queryCondition)
    (tsLanguage : Language) (pre rest : list WalkVisit)
    (incidents : list IncidentContext) :
  Forall (λ v, visit_error sc cond v = None) pre →
  walk_outcome sc cond tsLanguage (pre ++ rest) incidents =
  walk_outcome sc cond tsLanguage rest
    (incidents ++ (v ← pre; visit_incidents sc cond tsLanguage v)).
Proof.
  intros Hall. revert incidents.
  induction Hall as [|v pre Hv _ IH]; intros incidents; simpl.
  - by rewrite app_nil_r.
  - by rewrite Hv, IH, <- app_assoc.
Qed.

(** An evaluation that returns an error returns no incident with it: what
    the files before the failing one matched is dropped. *)
Theorem EvaluateQuery_error_zero_response (ctx : Context) (cap : string)
    (info : list Byte.byte) (sc sc' : TreeSitterServiceClient)
    (resp : ProviderEvaluateResponse) (e : error) :
  EvaluateQuery ctx cap info sc = ((resp, Some e), sc') →
  resp = zeroResponse.
Proof.
  rewrite EvaluateQuery_run. intros H.
  destruct (yaml_Unmarshal info) as [err|cond]; [by simplify_eq|].
  destruct (TreeSitterLanguages sc !! Query_Language cond) as [ts|];
    [|by simplify_eq].
  destruct (walk_outcome sc cond ts _ []) as [[e'|] incidents];
    simpl in H; [by simplify_eq|].
  by destruct (decide (0 < length incidents)); simplify_eq.
Qed.

(** Whatever the outcome, [Matched] says whether there are incidents. *)
Theorem EvaluateQuery_matched_iff_incidents (ctx : Context) (cap : string)
    (info : list Byte.byte) (sc : TreeSitterServiceClient) :
  Matched (EvaluateQuery ctx cap info sc).1.1 = true ↔
  Incidents (EvaluateQuery ctx cap info sc).1.1 ≠ [].
Proof.
  rewrite EvaluateQuery_run. simpl.
  destruct (yaml_Unmarshal info) as [err|cond]; [done|].
  destruct (TreeSitterLanguages sc !! Query_Language cond) as [ts|]; [|done].
  destruct (walk_outcome sc cond ts _ []) as [[e'|] incidents];
    simpl; [done|].
  destruct (decide (0 < length incidents)) as [Hlt|Hz]; simpl; [|done].
  split; [|done]. intros _ ->. simpl in Hlt. lia.
Qed.

(** Every incident of a response is the incident of a node the condition's
    query captured in a regular file of the walk that has the registered
    extension: it carries that file's URI, the span of the node, and no
    variable. *)
Theorem EvaluateQuery_incident_origin (ctx : Context) (cap : string)
    (info : list Byte.byte) (sc : TreeSitterServiceClient)
    (inc : IncidentContext) :
  inc ∈ Incidents (EvaluateQuery ctx cap info sc).1.1 →
  ∃ cond tsLanguage path node,
    yaml_Unmarshal info = inr cond ∧
    TreeSitterLanguages sc !! Query_Language cond = Some tsLanguage ∧
    path ∈ target_files sc cond ∧
    node ∈ query_matches cond tsLanguage path ∧
    inc = incidentOf path node ∧
    Variables inc = ∅ ∧
    FileURI inc = uri_New ("file://" +:+ path).
Proof.
  rewrite EvaluateQuery_run. simpl.
  destruct (yaml_Unmarshal info) as [err|cond];
    [by intros ?%elem_of_nil|].
  destruct (TreeSitterLanguages sc !! Query_Language cond) as [ts|] eqn:Hl;
    [|by intros ?%elem_of_nil].
  destruct (walk_outcome sc cond ts _ []) as [[e'|] incidents] eqn:Hw;
    simpl; [by intros ?%elem_of_nil|].
  apply walk_outcome_ok in Hw as [_ ->]. simpl.
  rewrite <- accumulated_visits.
  destruct (decide (0 < length (accumulated sc cond ts))); simpl;
    [|by intros ?%elem_of_nil].
  unfold accumulated. intros (path & Hinc & Hpath)%list_elem_of_bind.
  apply list_elem_of_fmap in Hinc as (node & -> & Hnode).
  by exists cond, ts, path, node.
Qed.

(** The first visit that fails decides the outcome: its error is returned
    with the zero response, whatever the walk would have visited after
    it. *)
Theorem EvaluateQuery_first_error (ctx : Context) (cap : string)
    (info : list Byte.byte) (sc : TreeSitterServiceClient)
    (cond : queryCondition) (tsLanguage : Language)
    (pre post : list WalkVisit) (v : WalkVisit) (e : error) :
  yaml_Unmarshal info = inr cond →
  TreeSitterLanguages sc !! Query_Language cond = Some tsLanguage →
  filepath_Walk_visits (Location sc) = pre ++ v :: post →
  Forall (λ v, visit_error sc cond v = None) pre →
  visit_error sc cond v = Some e →
  EvaluateQuery ctx cap info sc = ((zeroResponse, Some e), sc).
Proof.
  intros Hy Hl Hvisits Hpre Hv.
  rewrite EvaluateQuery_run, Hy, Hl, Hvisits.
  rewrite (walk_outcome_app _ _ _ _ _ _ Hpre). simpl. by rewrite Hv.
Qed.

(** The error [filepath.Walk] hands to the callback at a visit, if any. *)
Definition walk_error (v : WalkVisit) : option error :=
  match v with
  | VisitErr _ err => Some err
  | VisitOk _ _ => None
  end.

(** A language with a grammar but no entry in [ExtMap] has no target file:
    on a walk without walk errors the evaluation reads nothing and returns
    the zero response and no error. *)
Theorem EvaluateQuery_without_extension (ctx : Context) (cap : string)
    (info : list Byte.byte) (sc : TreeSitterServiceClient)
    (cond : queryCondition) (tsLanguage : Language) :
  yaml_Unmarshal info = inr cond →
  TreeSitterLanguages sc !! Query_Language cond = Some tsLanguage →
  ExtMap sc !! Query_Language cond = None →
  Forall (λ v, walk_error v = None) (filepath_Walk_visits (Location sc)) →
  target_files sc cond = [] ∧
  EvaluateQuery ctx cap info sc = ((zeroResponse, None), sc).
Proof.
  intros Hy Hl Hext.
  assert (Hno : ∀ v, is_target sc cond v = None).
  { intros [path [|]|path err]; simpl; by rewrite ?Hext. }
  assert (Htf : target_files sc cond = []).
  { unfold target_files.
    induction (filepath_Walk_visits (Location sc)) as [|v vs IH]; [done|].
    change (omap (is_target sc cond) (v :: vs))
      with (match is_target sc cond v with
            | Some p => p :: omap (is_target sc cond) vs
            | None => omap (is_target sc cond) vs
            end).
    rewrite Hno. exact IH. }
  intros Hwalk. split; [done|].
  rewrite (EvaluateQuery_no_error _ _ _ _ _ _ Hy Hl).
  - unfold accumulated. by rewrite Htf.
  - eapply Forall_impl; [exact Hwalk|].
    intros [path isDir|path err] Hv; [|done].
    unfold visit_error. by rewrite Hno.
Qed.

(** Evaluations do not interfere: two evaluations in sequence return what
    each returns on its own from the initial client. *)
Theorem EvaluateQuery_sequence (ctx1 ctx2 : Context) (cap1 cap2 : string)
    (info1 info2 : list Byte.byte) (sc : TreeSitterServiceClient) :
  (r1 ←ₘ EvaluateQuery ctx1 cap1 info1 ;;
   r2 ←ₘ EvaluateQuery ctx2 cap2 info2 ;;
   ret (r1, r2)) sc
  = (((EvaluateQuery ctx1 cap1 info1 sc).1,
      (EvaluateQuery ctx2 cap2 info2 sc).1), sc).
Proof. unfold bind, ret. by rewrite !EvaluateQuery_run. Qed.

(** ** Further properties of [GetGenericServiceClientCapabilities] *)

(** Every constructor is accounted for once: its capability is in the slice
    or its error is in the log, and the log only grows. *)
Theorem capabilities_accounted (log : Logger) :
  let caps := (GetGenericServiceClientCapabilities log).1 in
  let log' := (GetGenericServiceClientCapabilities log).2 in
  log `prefix_of` log' ∧
  length caps + length log' = length constructors + length log.
Proof.
  unfold GetGenericServiceClientCapabilities, constructors.
  destruct (provider_ToProviderCap openapi3_NewReflector
              ReferencedCondition "referenced") as [r1 o1].
  destruct (provider_ToProviderCap r1 NoOpCondition "dependency") as [r2 o2].
  destruct (provider_ToProviderCap r2 echoConditionT "echo") as [r3 o3].
  destruct (provider_ToProviderCap r3 queryConditionT "query") as [r4 o4].
  destruct o1 as [e1|c1], o2 as [e2|c2], o3 as [e3|c3], o4 as [e4|c4];
    cbn [fst snd]; rewrite <- ?app_assoc; rewrite ?length_app;
    (split; [first [by eexists | by exists []; rewrite app_nil_r]
            |simpl; lia]).
Qed.

(** The slice keeps the order of the source and holds no evaluator twice. *)
Theorem capabilities_ordered (log : Logger) :
  Fn <$> (GetGenericServiceClientCapabilities log).1 `sublist_of`
  [EvaluateReferenced; EvaluateNoOp; FnEvaluateEcho; FnEvaluateQuery].
Proof.
  unfold GetGenericServiceClientCapabilities.
  destruct (provider_ToProviderCap openapi3_NewReflector
              ReferencedCondition "referenced") as [r1 o1].
  destruct (provider_ToProviderCap r1 NoOpCondition "dependency") as [r2 o2].
  destruct (provider_ToProviderCap r2 echoConditionT "echo") as [r3 o3].
  destruct (provider_ToProviderCap r3 queryConditionT "query") as [r4 o4].
  destruct o1 as [e1|c1], o2 as [e2|c2], o3 as [e3|c3], o4 as [e4|c4];
    cbn;
    repeat first [apply sublist_nil | apply sublist_skip | apply sublist_cons].
Qed.

(** What the log says.  A failure of the "dependency" constructor is logged
    with the message of the "referenced" one, and no new entry has another
    message than the three below: none names the dependency capability. *)
Theorem capabilities_log_messages (log : Logger) :
  let os := outcomes openapi3_NewReflector constructors in
  let log' := (GetGenericServiceClientCapabilities log).2 in
  (∀ err, (EvaluateNoOp, inl err) ∈ os →
          (err, "unable to get referenced cap") ∈ log') ∧
  (∀ err msg, (err, msg) ∈ log' →
     (err, msg) ∈ log ∨
     msg ∈ ["unable to get referenced cap"; "unable to get echo cap";
            "unable to get query cap"]).
Proof.
  clear yaml_Unmarshal filepath_Walk_visits os_ReadFile filepath_Ext
    parser_Parse tree_sitter_NewQuery cursor_Captures uri_New.
  unfold GetGenericServiceClientCapabilities, constructors. cbn [outcomes].
  destruct (provider_ToProviderCap openapi3_NewReflector
              ReferencedCondition "referenced") as [r1 o1]. cbn [fst snd].
  destruct (provider_ToProviderCap r1 NoOpCondition "dependency") as [r2 o2].
  cbn [fst snd].
  destruct (provider_ToProviderCap r2 echoConditionT "echo") as [r3 o3].
  cbn [fst snd].
  destruct (provider_ToProviderCap r3 queryConditionT "query") as [r4 o4].
  cbv zeta.
  destruct o1 as [e1|c1], o2 as [e2|c2], o3 as [e3|c3], o4 as [e4|c4];
    cbn [fst snd]; split.
  all: try (intros err Hin;
            repeat (apply elem_of_cons in Hin as [Hin|Hin]; [simplify_eq|]);
            try (by apply elem_of_nil in Hin);
            rewrite !elem_of_app, !list_elem_of_singleton; by eauto).
  all: intros err msg Hin; rewrite ?elem_of_app in Hin;
    rewrite ?list_elem_of_singleton in Hin;
    rewrite !elem_of_cons; naive_solver.
Qed.

(** ** [EvaluateEcho] *)

(** [echoCondition]: [cond.Echo.Input]. *)
Record echoCondition := mkEchoCondition { Echo_Input : string }.

Variable yaml_Unmarshal_echo : list Byte.byte → error + echoCondition.

(** [func (sc *TreeSitterServiceClient) EvaluateEcho(ctx, cap, info)] *)
Definition EvaluateEcho (ctx : Context) (cap : string) (info : list Byte.byte)
    : M (ProviderEvaluateResponse * option error) :=
  match yaml_Unmarshal_echo info with
  | inl err => ret (zeroResponse, Some (Errorf "error unmarshaling query info"))
  | inr cond =>
      ret (mkResponse true
             [mkIncident "file://test" None {[ "output" := Echo_Input cond ]}],
           None)
  end.

(** The echo capability answers from the payload alone.  It leaves the
    client as it found it; it matches exactly when the payload decodes, and
    then it returns one incident, without a location, whose variable
    "output" is the decoded input; when the payload does not decode the
    error is the same whatever the decoder reported. *)
Theorem EvaluateEcho_response (ctx : Context) (cap : string)
    (info : list Byte.byte) (sc : TreeSitterServiceClient) :
  (EvaluateEcho ctx cap info sc).2 = sc ∧
  (Matched (EvaluateEcho ctx cap info sc).1.1 = true ↔
   (EvaluateEcho ctx cap info sc).1.2 = None) ∧
  (∀ cond, yaml_Unmarshal_echo info = inr cond →
     ∃ inc, Incidents (EvaluateEcho ctx cap info sc).1.1 = [inc] ∧
            CodeLocation inc = None ∧
            Variables inc !! "output" = Some (Echo_Input cond) ∧
            size (Variables inc) = 1) ∧
  (∀ err, yaml_Unmarshal_echo info = inl err →
     (EvaluateEcho ctx cap info sc).1
     = (zeroResponse, Some (Errorf "error unmarshaling query info"))).
Proof.
  unfold EvaluateEcho.
  destruct (yaml_Unmarshal_echo info) as [err|cond]; simpl.
  - split_and!; [done|done|done|done].
  - split_and!; [done|done| |done].
    intros ? [= <-].
    exists (mkIncident "file://test" None {[ "output" := Echo_Input cond ]}).
    split_and!; [done|done| |].
    + apply lookup_singleton_eq.
    + apply map_size_singleton.
Qed.

(** ** [Init] *)

(** [TreeSitterServiceClientConfig], the fields of the inlined
    [base.LSPServiceClientConfig] that [Init] reads and writes. *)
Record TreeSitterServiceClientConfig := mkConfig {
  WorkspaceFolders : list string;
  LspServerInitializationOptions : string;
}.

Variables ProviderConfig JSONObject Evaluator : Type.
Variable yaml_Marshal : ProviderConfig → list Byte.byte.
Variable yaml_Unmarshal_config :
  list Byte.byte → error + TreeSitterServiceClientConfig.
Variable json_Unmarshal : string → error + JSONObject.
Variable emptyObject : JSONObject.
Variable base_NewLspServiceClientEvaluator :
  list LSPServiceClientCapability → error + Evaluator.
Variable tree_sitter_java_Language : Language.

(** [provider.InitConfig], the fields [Init] reads. *)
Record InitConfig := mkInitConfig {
  ic_Location : string;
  ProviderSpecificConfig : ProviderConfig;
}.

(** [protocol.InitializeParams] *)
Record InitializeParams := mkInitializeParams {
  RootURI : string;
  InitializationOptions : JSONObject;
}.

(** What [Init] returns: the configuration, the evaluator, and the fields the
    evaluators use. *)
Record ServiceClient := mkServiceClient {
  Config : TreeSitterServiceClientConfig;
  LSPServiceClientEvaluator : Evaluator;
  Fields : TreeSitterServiceClient;
}.

(** The parameters of the [initialize] request, as [Init] builds them from
    the configuration. *)
Definition initializeParams (config : TreeSitterServiceClientConfig)
    : InitializeParams :=
  mkInitializeParams
    (match WorkspaceFolders config with
     | [] => ""
     | folder :: _ => folder
     end)
    (match json_Unmarshal (LspServerInitializationOptions config) with
     | inl _ => emptyObject
     | inr options => options
     end).

(** [func (g *TreeSitterServiceClientBuilder) Init(ctx, log, c)].  The error
    of [yaml.Marshal] is dropped in the source, so [yaml_Marshal] is the
    bytes it returns; the [initialize] parameters are built and not used,
    the base client being commented out. *)
Definition Init (ctx : Context) (log : Logger) (c : InitConfig)
    : (error + ServiceClient) * Logger :=
  let b := yaml_Marshal (ProviderSpecificConfig c) in
  match yaml_Unmarshal_config b with
  | inl err =>
      (inl (Errorfw "generic providerSpecificConfig Unmarshal error: %w" err),
       log)
  | inr config =>
      let config :=
        if decide (ic_Location c ≠ "")
        then mkConfig [ic_Location c] (LspServerInitializationOptions config)
        else config in
      let params := initializeParams config in
      let '(caps, log) := GetGenericServiceClientCapabilities log in
      match base_NewLspServiceClientEvaluator caps with
      | inl err =>
          (inl (Errorfw "lsp service client evaluator error: %w" err), log)
      | inr eval =>
          (inr (mkServiceClient config eval
                  (mkClient (ic_Location c)
                     {[ "java" := tree_sitter_java_Language ]}
                     {[ "java" := ".java" ]}
                     ∅ ∅)),
           log)
      end
  end.

(** The regular files of a walk that end in ".java". *)
Definition java_files (root : string) : list string :=
  omap (λ v, match v with
             | VisitOk path false =>
                 if decide (filepath_Ext path = ".java") then Some path
                 else None
             | _ => None
             end)
       (filepath_Walk_visits root).

Lemma Init_success (ctx : Context) (log log' : Logger) (c : InitConfig)
    (s : ServiceClient) :
  Init ctx log c = (inr s, log') →
  ∃ config,
    yaml_Unmarshal_config (yaml_Marshal (ProviderSpecificConfig c))
      = inr config ∧
    Config s =
      (if decide (ic_Location c ≠ "")
       then mkConfig [ic_Location c] (LspServerInitializationOptions config)
       else config) ∧
    base_NewLspServiceClientEvaluator
      (GetGenericServiceClientCapabilities log).1
      = inr (LSPServiceClientEvaluator s) ∧
    log' = (GetGenericServiceClientCapabilities log).2 ∧
    Fields s = mkClient (ic_Location c)
                 {[ "java" := tree_sitter_java_Language ]}
                 {[ "java" := ".java" ]} ∅ ∅.
Proof.
  unfold Init.
  destruct (yaml_Unmarshal_config _) as [err|config]; [done|].
  destruct (GetGenericServiceClientCapabilities log) as [caps lg]. simpl.
  destruct (base_NewLspServiceClientEvaluator caps) as [err|eval] eqn:He;
    [done|].
  intros [= <- <-]. by exists config.
Qed.

(** [Init] fails exactly when the provider configuration does not decode or
    the evaluator cannot be built from the capabilities that registered.
    Initialization options that are not JSON, and capability constructors
    that fail, do not make it fail. *)
Theorem Init_fails_iff (ctx : Context) (log : Logger) (c : InitConfig) :
  (∃ e, (Init ctx log c).1 = inl e) ↔
  (∃ err, yaml_Unmarshal_config (yaml_Marshal (ProviderSpecificConfig c))
          = inl err) ∨
  (∃ err, base_NewLspServiceClientEvaluator
            (GetGenericServiceClientCapabilities log).1 = inl err).
Proof.
  unfold Init.
  destruct (yaml_Unmarshal_config _) as [err|config]; simpl.
  { split; [|by eauto]. intros _. left. eauto. }
  destruct (GetGenericServiceClientCapabilities log) as [caps lg]. simpl.
  destruct (base_NewLspServiceClientEvaluator caps) as [err|eval]; simpl.
  - split; [|by eauto]. intros _. right. eauto.
  - split; [by intros [? ?]|]. by intros [[? ?]|[? ?]].
Qed.

(** A location given to [Init] replaces the configured workspace folders,
    and it is the root the query evaluator walks; without a location the
    configured folders are kept, and the walk root is the empty path. *)
Theorem Init_location (ctx : Context) (log log' : Logger) (c : InitConfig)
    (s : ServiceClient) :
  Init ctx log c = (inr s, log') →
  Location (Fields s) = ic_Location c ∧
  (ic_Location c ≠ "" →
     WorkspaceFolders (Config s) = [ic_Location c] ∧
     RootURI (initializeParams (Config s)) = Location (Fields s)) ∧
  (ic_Location c = "" →
     ∃ config,
       yaml_Unmarshal_config (yaml_Marshal (ProviderSpecificConfig c))
         = inr config ∧
       Config s = config ∧ Location (Fields s) = "").
Proof.
  intros (config & Hy & Hc & _ & _ & Hf)%Init_success.
  rewrite Hf, Hc. simpl. split_and!; [done| |].
  - intros Hne. by rewrite decide_True.
  - intros Heq. exists config. rewrite decide_False; [done|]. by intros ?.
Qed.

(** After [Init] the query capability supports Java and nothing else: a
    condition in another language is refused with "language not supported",
    and for Java the files parsed are the regular files under the location
    that end in ".java". *)
Theorem Init_then_EvaluateQuery (ctx ctx' : Context) (log log' : Logger)
    (c : InitConfig) (s : ServiceClient) (cap : string)
    (info : list Byte.byte) (cond : queryCondition) :
  Init ctx log c = (inr s, log') →
  yaml_Unmarshal info = inr cond →
  (Query_Language cond ≠ "java" →
     EvaluateQuery ctx' cap info (Fields s) =
     ((zeroResponse, Some (Errorf "language not supported")), Fields s)) ∧
  (Query_Language cond = "java" →
     TreeSitterLanguages (Fields s) !! Query_Language cond
       = Some tree_sitter_java_Language ∧
     target_files (Fields s) cond = java_files (ic_Location c)).
Proof.
  intros (config & _ & _ & _ & _ & Hf)%Init_success Hy. rewrite Hf. split.
  - intros Hne. rewrite EvaluateQuery_run, Hy. simpl.
    by rewrite lookup_singleton_ne.
  - intros Heq. simpl. rewrite Heq. split; [by rewrite lookup_singleton_eq|].
    unfold target_files, java_files. simpl.
    apply list_omap_ext, Forall_Forall2_diag, Forall_forall.
    intros [path [|]|path err] _; simpl; try done.
    by rewrite Heq, lookup_singleton_eq.
Qed.

End Client.

(** ** Which files the evaluator reads *)

Section FileAccess.

Variables Language Tree Query : Type.
Variable yaml_Unmarshal : list Byte.byte → error + queryCondition.
Variable filepath_Walk_visits : string → list WalkVisit.
Variables read1 read2 : string → error + list Byte.byte.
Variable filepath_Ext : string → string.
Variable parser_Parse : Language → list Byte.byte → Tree.
Variable tree_sitter_NewQuery : Language → string → QueryError + Query.
Variable cursor_Captures : Query → Tree → list Byte.byte → list Node.
Variable uri_New : string → string.

Lemma walk_outcome_reads (sc : TreeSitterServiceClient Language)
    (cond : queryCondition) (tsLanguage : Language)
    (visits : list WalkVisit) :
  (∀ v path, v ∈ visits → is_target Language filepath_Ext sc cond v = Some path →
             read1 path = read2 path) →
  ∀ incidents,
    walk_outcome Language Tree Query read1 filepath_Ext parser_Parse
      tree_sitter_NewQuery cursor_Captures uri_New sc cond tsLanguage
      visits incidents
    = walk_outcome Language Tree Query read2 filepath_Ext parser_Parse
        tree_sitter_NewQuery cursor_Captures uri_New sc cond tsLanguage
        visits incidents.
Proof.
  induction visits as [|v visits IH]; intros Hsame incidents; [done|].
  assert (Htail : ∀ v' path, v' ∈ visits →
            is_target Language filepath_Ext sc cond v' = Some path →
            read1 path = read2 path).
  { intros v' path Hin. apply Hsame. by right. }
  specialize (IH Htail).
  cbn [walk_outcome]. unfold visit_error, visit_incidents, query_matches.
  destruct v as [path isDir|path err]; [|done].
  destruct (is_target Language filepath_Ext sc cond (VisitOk path isDir))
    as [p|] eqn:Ht; [|apply IH].
  rewrite (Hsame (VisitOk path isDir) p) by (done || left).
  destruct (read2 p); [done|apply IH].
Qed.

(** The evaluation depends on the contents of the regular files that have
    the registered extension, and of no other entry of the workspace: two
    file systems that agree on those files give the same result. *)
Theorem EvaluateQuery_reads_targets_only (ctx : Context) (cap : string)
    (info : list Byte.byte) (sc : TreeSitterServiceClient Language) :
  (∀ cond path,
     yaml_Unmarshal info = inr cond →
     path ∈ target_files Language filepath_Walk_visits filepath_Ext sc cond →
     read1 path = read2 path) →
  EvaluateQuery Language Tree Query yaml_Unmarshal filepath_Walk_visits read1
    filepath_Ext parser_Parse tree_sitter_NewQuery cursor_Captures uri_New
    ctx cap info sc
  = EvaluateQuery Language Tree Query yaml_Unmarshal filepath_Walk_visits read2
      filepath_Ext parser_Parse tree_sitter_NewQuery cursor_Captures uri_New
      ctx cap info sc.
Proof.
  intros Hsame. rewrite !EvaluateQuery_run.
  destruct (yaml_Unmarshal info) as [err|cond] eqn:Hy; [done|].
  destruct (TreeSitterLanguages Language sc !! Query_Language cond)
    as [ts|]; [|done].
  rewrite (walk_outcome_reads sc cond ts); [done|].
  intros v path Hin Ht. apply (Hsame cond); [done|].
  apply list_elem_of_omap. eauto.
Qed.

End FileAccess.

(** ** A concrete workspace

    One directory with a Java file and a text file, a decoder with three
    payloads, and a grammar for which only the query "(" fails to compile. *)

(** [filepath.Ext]: the suffix of the last path element that starts at its
    last dot.  [ext_scan] returns whether a separator was met, and the
    extension. *)
Fixpoint ext_scan (path : string) : bool * string :=
  match path with
  | EmptyString => (false, EmptyString)
  | String c rest =>
      let '(sep, e) := ext_scan rest in
      if sep then (true, e)
      else if Ascii.eqb c "/"%char then (true, e)
      else if negb (String.eqb e EmptyString) then (false, e)
      else if Ascii.eqb c "."%char then (false, String c rest)
      else (false, EmptyString)
  end.
Definition demo_Ext (path : string) : string := (ext_scan path).2.

Definition demo_Unmarshal (info : list Byte.byte) : error + queryCondition :=
  match info with
  | [] => inr (mkQueryCondition "java" "(class_declaration) @c")
  | [Byte.x00] => inr (mkQueryCondition "java" "(")
  | [Byte.x01] => inr (mkQueryCondition "python" "(module) @m")
  | _ => inl (YAMLError "cannot unmarshal")
  end.

Definition demo_visits (root : string) : list WalkVisit :=
  [VisitOk root true;
   VisitOk (root +:+ "/A.java") false;
   VisitOk (root +:+ "/README.md") false].

Definition demo_ReadFile (path : string) : error + list Byte.byte :=
  inr [Byte.x63].

Definition demo_NewQuery (lang : nat) (source : string) : QueryError + string :=
  if String.eqb source "(" then inl (mkQueryError "syntax error")
  else inr source.

Definition demo_Captures (query : string) (tree : list Byte.byte)
    (src : list Byte.byte) : list Node :=
  [mkNode (mkPoint 0 0) (mkPoint 0 8)].

Definition demo_EvaluateQuery :=
  EvaluateQuery nat (list Byte.byte) string demo_Unmarshal demo_visits
    demo_ReadFile demo_Ext (λ _ src, src) demo_NewQuery demo_Captures id.

Definition demo_client : TreeSitterServiceClient nat :=
  mkClient nat "/ws" {[ "java" := 0 ]} {[ "java" := ".java" ]} ∅ ∅.

Definition demo_incident : IncidentContext :=
  mkIncident "file:///ws/A.java"
    (Some (mkLocation (mkPosition 0 0) (mkPosition 0 8))) ∅.

(** C3, on the code.  The query "(" does not compile, and the workspace has a
    Java file on which the compilation is attempted; the evaluation still
    returns the zero response and a nil error, not the compile error. *)
Theorem EvaluateQuery_compile_error_lost :
  demo_Unmarshal [Byte.x00] = inr (mkQueryCondition "java" "(") ∧
  demo_NewQuery 0 "(" = inl (mkQueryError "syntax error") ∧
  demo_EvaluateQuery Background "query" [Byte.x00] demo_client
  = ((zeroResponse, None), demo_client).
Proof. split_and!; [done..|]. vm_compute. reflexivity. Qed.

(** C5 fails as stated: with a context that is canceled from the start, the
    evaluation walks the workspace and returns a success response with the
    incident of the Java file, and no error. *)
Lemma EvaluateQuery_canceled_context_succeeds :
  Err CanceledContext 0 = Some ContextCanceled ∧
  demo_EvaluateQuery CanceledContext "query" [] demo_client
  = ((mkResponse true [demo_incident], None), demo_client).
Proof. split; [done|]. vm_compute. reflexivity. Qed.

Lemma EvaluateQuery_success_response_witness :
  ∃ cond tsLanguage,
    demo_Unmarshal [] = inr cond ∧
    TreeSitterLanguages nat demo_client !! Query_Language cond
      = Some tsLanguage ∧
    Forall (λ v, visit_error nat demo_ReadFile demo_Ext demo_client cond v = None)
           (demo_visits (Location nat demo_client)) ∧
    (accumulated nat (list Byte.byte) string demo_visits demo_ReadFile demo_Ext
       (λ _ src, src) demo_NewQuery demo_Captures id demo_client cond tsLanguage
       ≠ [] →
     mkResponse true [demo_incident] =
     mkResponse true
       (accumulated nat (list Byte.byte) string demo_visits demo_ReadFile
          demo_Ext (λ _ src, src) demo_NewQuery demo_Captures id demo_client
          cond tsLanguage)) ∧
    (accumulated nat (list Byte.byte) string demo_visits demo_ReadFile demo_Ext
       (λ _ src, src) demo_NewQuery demo_Captures id demo_client cond tsLanguage
       = [] →
     mkResponse true [demo_incident] = mkResponse false []).
Proof.
  apply (EvaluateQuery_success_response nat (list Byte.byte) string
           demo_Unmarshal demo_visits demo_ReadFile demo_Ext (λ _ src, src)
           demo_NewQuery demo_Captures id
           Background "query" [] demo_client demo_client
           (mkResponse true [demo_incident])).
  vm_compute. reflexivity.
Defined.

Lemma EvaluateQuery_unsupported_language_witness :
  demo_EvaluateQuery Background "query" [Byte.x01] demo_client
  = ((zeroResponse, Some (Errorf "language not supported")), demo_client).
Proof.
  apply (EvaluateQuery_unsupported_language nat (list Byte.byte) string
           demo_Unmarshal demo_visits demo_ReadFile demo_Ext (λ _ src, src)
           demo_NewQuery demo_Captures id
           Background "query" [Byte.x01] demo_client
           (mkQueryCondition "python" "(module) @m")).
  - reflexivity.
  - vm_compute. reflexivity.
Defined.

(** With a grammar but no extension registered for the language, the
    evaluation is not an error: no file is a target and the zero response
    is returned. *)
Example EvaluateQuery_no_extension :
  demo_EvaluateQuery Background "query" []
    (mkClient nat "/ws" {[ "java" := 0 ]} ∅ ∅ ∅)
  = ((zeroResponse, None), mkClient nat "/ws" {[ "java" := 0 ]} ∅ ∅ ∅).
Proof. vm_compute. reflexivity. Qed.

Lemma EvaluateQuery_swallows_compile_error_witness :
  demo_EvaluateQuery Background "query" [Byte.x00] demo_client
  = ((zeroResponse, None), demo_client).
Proof.
  apply (EvaluateQuery_swallows_compile_error nat (list Byte.byte) string
           demo_Unmarshal demo_visits demo_ReadFile demo_Ext (λ _ src, src)
           demo_NewQuery demo_Captures id
           Background "query" [Byte.x00] demo_client
           (mkQueryCondition "java" "(") 0 (mkQueryError "syntax error")).
  - reflexivity.
  - vm_compute. reflexivity.
  - reflexivity.
  - repeat constructor.
Defined.

(** *** A workspace with an unreadable entry, and a session built by
    [Init] *)

Definition locked_visits (root : string) : list WalkVisit :=
  [VisitOk root true;
   VisitOk (root +:+ "/A.java") false;
   VisitErr (root +:+ "/locked") (OSError "permission denied");
   VisitOk (root +:+ "/B.java") false].

Definition locked_EvaluateQuery :=
  EvaluateQuery nat (list Byte.byte) string demo_Unmarshal locked_visits
    demo_ReadFile demo_Ext (λ _ src, src) demo_NewQuery demo_Captures id.

Definition demo_ToProviderCap (r : nat) (c : ConditionType) (name : string)
    : nat * (error + string) :=
  (S r, inr name).

Definition demo_config (b : list Byte.byte)
    : error + TreeSitterServiceClientConfig :=
  inr (mkConfig ["/configured"] "{}").

Definition demo_Init :=
  Init nat string nat 0 demo_ToProviderCap unit unit nat (λ _, [])
    demo_config (λ _, inr tt) tt (λ caps, inr (length caps)) 0.

Definition demo_service : ServiceClient nat nat :=
  mkServiceClient nat nat (mkConfig ["/ws"] "{}") 4 demo_client.

Lemma EvaluateQuery_error_zero_response_witness :
  (locked_EvaluateQuery Background "query" [] demo_client).1.1 = zeroResponse.
Proof.
  apply (EvaluateQuery_error_zero_response nat (list Byte.byte) string
           demo_Unmarshal locked_visits demo_ReadFile demo_Ext (λ _ src, src)
           demo_NewQuery demo_Captures id
           Background "query" [] demo_client demo_client _
           (OSError "permission denied")).
  vm_compute. reflexivity.
Defined.

Lemma EvaluateQuery_incident_origin_witness :
  ∃ cond tsLanguage path node,
    demo_Unmarshal [] = inr cond ∧
    TreeSitterLanguages nat demo_client !! Query_Language cond
      = Some tsLanguage ∧
    path ∈ target_files nat demo_visits demo_Ext demo_client cond ∧
    node ∈ query_matches nat (list Byte.byte) string demo_ReadFile
             (λ _ src, src) demo_NewQuery demo_Captures cond tsLanguage path ∧
    demo_incident = incidentOf id path node ∧
    Variables demo_incident = ∅ ∧
    FileURI demo_incident = id ("file://" +:+ path).
Proof.
  apply (EvaluateQuery_incident_origin nat (list Byte.byte) string
           demo_Unmarshal demo_visits demo_ReadFile demo_Ext (λ _ src, src)
           demo_NewQuery demo_Captures id
           Background "query" [] demo_client demo_incident).
  vm_compute. left.
Defined.

Lemma EvaluateQuery_first_error_witness :
  locked_EvaluateQuery Background "query" [] demo_client
  = ((zeroResponse, Some (OSError "permission denied")), demo_client).
Proof.
  apply (EvaluateQuery_first_error nat (list Byte.byte) string
           demo_Unmarshal locked_visits demo_ReadFile demo_Ext (λ _ src, src)
           demo_NewQuery demo_Captures id
           Background "query" [] demo_client
           (mkQueryCondition "java" "(class_declaration) @c") 0
           [VisitOk "/ws" true; VisitOk "/ws/A.java" false]
           [VisitOk "/ws/B.java" false]
           (VisitErr "/ws/locked" (OSError "permission denied"))
           (OSError "permission denied")).
  - reflexivity.
  - vm_compute. reflexivity.
  - reflexivity.
  - repeat constructor.
  - reflexivity.
Defined.

Lemma EvaluateQuery_without_extension_witness :
  target_files nat demo_visits demo_Ext
    (mkClient nat "/ws" {[ "java" := 0 ]} ∅ ∅ ∅)
    (mkQueryCondition "java" "(class_declaration) @c") = [] ∧
  demo_EvaluateQuery Background "query" []
    (mkClient nat "/ws" {[ "java" := 0 ]} ∅ ∅ ∅)
  = ((zeroResponse, None), mkClient nat "/ws" {[ "java" := 0 ]} ∅ ∅ ∅).
Proof.
  apply (EvaluateQuery_without_extension nat (list Byte.byte) string
           demo_Unmarshal demo_visits demo_ReadFile demo_Ext (λ _ src, src)
           demo_NewQuery demo_Captures id
           Background "query" []
           (mkClient nat "/ws" {[ "java" := 0 ]} ∅ ∅ ∅)
           (mkQueryCondition "java" "(class_declaration) @c") 0).
  - reflexivity.
  - vm_compute. reflexivity.
  - reflexivity.
  - repeat constructor.
Defined.

Lemma Init_location_witness :
  Location nat (Fields nat nat demo_service) = "/ws" ∧
  ("/ws" ≠ "" →
     WorkspaceFolders (Config nat nat demo_service) = ["/ws"] ∧
     RootURI unit (initializeParams unit (λ _, inr tt) tt
                     (Config nat nat demo_service))
     = Location nat (Fields nat nat demo_service)) ∧
  ("/ws" = "" →
     ∃ config,
       demo_config [] = inr config ∧
       Config nat nat demo_service = config ∧
       Location nat (Fields nat nat demo_service) = "").
Proof.
  apply (Init_location nat string nat 0 demo_ToProviderCap unit unit nat
           (λ _, []) demo_config (λ _, inr tt) tt (λ caps, inr (length caps)) 0
           Background [] [] (mkInitConfig unit "/ws" tt) demo_service).
  vm_compute. reflexivity.
Defined.

Lemma Init_then_EvaluateQuery_witness :
  ("python" ≠ "java" →
     demo_EvaluateQuery CanceledContext "query" [Byte.x01]
       (Fields nat nat demo_service)
     = ((zeroResponse, Some (Errorf "language not supported")),
        Fields nat nat demo_service)) ∧
  ("python" = "java" →
     TreeSitterLanguages nat (Fields nat nat demo_service) !! "python"
       = Some 0 ∧
     target_files nat demo_visits demo_Ext (Fields nat nat demo_service)
       (mkQueryCondition "python" "(module) @m")
     = java_files demo_visits demo_Ext "/ws").
Proof.
  apply (Init_then_EvaluateQuery nat (list Byte.byte) string string nat
           demo_Unmarshal demo_visits demo_ReadFile demo_Ext (λ _ src, src)
           demo_NewQuery demo_Captures id 0 demo_ToProviderCap unit unit nat
           (λ _, []) demo_config (λ _, inr tt) tt (λ caps, inr (length caps)) 0
           Background CanceledContext [] [] (mkInitConfig unit "/ws" tt)
           demo_service "query" [Byte.x01]
           (mkQueryCondition "python" "(module) @m")).
  - vm_compute. reflexivity.
  - reflexivity.
Defined.

Lemma EvaluateQuery_reads_targets_only_witness :
  demo_EvaluateQuery Background "query" [] demo_client
  = EvaluateQuery nat (list Byte.byte) string demo_Unmarshal demo_visits
      (λ path, if String.eqb path "/ws/README.md"
               then inl (OSError "permission denied") else inr [Byte.x63])
      demo_Ext (λ _ src, src) demo_NewQuery demo_Captures id
      Background "query" [] demo_client.
Proof.
  apply (EvaluateQuery_reads_targets_only nat (list Byte.byte) string
           demo_Unmarshal demo_visits demo_ReadFile
           (λ path, if String.eqb path "/ws/README.md"
                    then inl (OSError "permission denied") else inr [Byte.x63])
           demo_Ext (λ _ src, src) demo_NewQuery demo_Captures id
           Background "query" [] demo_client).
  intros cond path [= <-] Hin. vm_compute in Hin.
  apply list_elem_of_singleton in Hin as ->. reflexivity.
Defined.

End TreeSitter.
